(** * Efficient Gaussian embedding of a tensor network: the planner

    A shallow embedding of [embeddings/efficient_gaussian_embedding.py]
    (class [EfficientGaussianEmb]) and the properties of its dimension
    planner, contraction partitioner, Kronecker scheduler and tree-embedding
    scheduler.

    The class [TensorNetwork] (module [tensor_network.tensor_network]) is a
    collaborator of the planner: its operations are the fields of the class
    [TensorNetwork] below, and every theorem holds for any instance.  A node
    read with [x[i]] is a snapshot record of what the planner looks at: its
    edges, its tensor's shape and its dangling edges that require a sketch.
    A raised exception is [None]. *)

From Stdlib Require Import ZArith Floats Lia Ascii.
From stdpp Require Import base option list strings gmap.

Open Scope Z_scope.

#[local] Set Warnings "-clear-no-such-hyp".

(** ** Python and numpy primitives *)

Module Py.

Section Dict.
Context {K V : Type} `{EqDecision K}.

(** A Python [dict] keeps insertion order: an association list whose keys
    are distinct.  [D[k] = v] overwrites in place, or appends a new key. *)
Fixpoint dict_set (D : list (K * V)) (k : K) (v : V) : list (K * V) :=
  match D with
  | [] => [(k, v)]
  | (k', v') :: D' =>
      if decide (k' = k) then (k', v) :: D' else (k', v') :: dict_set D' k v
  end.

(** [D[k]]; [None] is [KeyError]. *)
Fixpoint dict_get (D : list (K * V)) (k : K) : option V :=
  match D with
  | [] => None
  | (k', v') :: D' => if decide (k' = k) then Some v' else dict_get D' k
  end.

(** [{k: v for k in ks}]. *)
Definition dict_from_keys (ks : list K) (v : V) : list (K * V) :=
  foldl (fun D k => dict_set D k v) [] ks.

End Dict.

(** [D[k].append(c)]; [None] is [KeyError]. *)
Fixpoint dict_append {K A : Type} `{EqDecision K}
    (D : list (K * list A)) (k : K) (c : A) : option (list (K * list A)) :=
  match D with
  | [] => None
  | (k', l) :: D' =>
      if decide (k' = k) then Some ((k', l ++ [c]) :: D')
      else cons (k', l) <$> dict_append D' k c
  end.

(** [l.insert(k, a)] for [0 <= k]. *)
Definition list_insert_at {A : Type} (k : nat) (a : A) (l : list A) : list A :=
  take k l ++ a :: drop k l.

(** [itertools.permutations(l)]: every element in turn, by position, put in
    front of the permutations of the others. *)
Fixpoint picks {A : Type} (l : list A) : list (A * list A) :=
  match l with
  | [] => []
  | a :: l' => (a, l') :: map (fun p => (p.1, a :: p.2)) (picks l')
  end.

Fixpoint permutations_upto {A : Type} (n : nat) (l : list A) : list (list A) :=
  match n, l with
  | S n', _ :: _ =>
      flat_map (fun p => map (cons p.1) (permutations_upto n' p.2)) (picks l)
  | _, _ => [[]]
  end.

Definition permutations {A : Type} (l : list A) : list (list A) :=
  permutations_upto (length l) l.

(** numpy's default integer is 64 bits wide and wraps around. *)
Definition wrap64 (z : Z) : Z := (z + 2 ^ 63) mod 2 ^ 64 - 2 ^ 63.

Definition product (l : list Z) : Z := foldr Z.mul 1 l.

(** A number of the cost simulation: an integer (a Python [int] or a numpy
    [int64]), or a numpy [float64], which here always holds an integer. *)
Inductive Number :=
| Int (n : Z)
| Float64 (n : Z).

Definition value (a : Number) : Z :=
  match a with
  | Int n | Float64 n => n
  end.

Definition is_float64 (a : Number) : bool :=
  match a with
  | Float64 _ => true
  | Int _ => false
  end.

(** The binary64 nearest to an integer, ties to even: with 53 bits of
    mantissa, every integer up to [2 ^ 53] in magnitude is kept, and beyond
    that the low bits are rounded away.  (No size reaches the overflow of
    binary64.) *)
Definition to_binary64 (z : Z) : Z :=
  let e := Z.log2 (Z.abs z) - 52 in
  if e <=? 0 then z
  else
    let q := Z.abs z / 2 ^ e in
    let r := Z.abs z mod 2 ^ e in
    let up := (2 ^ (e - 1) <? r) || ((r =? 2 ^ (e - 1)) && Z.odd q) in
    Z.sgn z * ((if up then q + 1 else q) * 2 ^ e).

(** [a < b]: the order of the integers on two integers; as soon as one of
    the two is a [float64], numpy compares them as binary64. *)
Definition number_ltb (a b : Number) : bool :=
  if is_float64 a || is_float64 b
  then to_binary64 (value a) <? to_binary64 (value b)
  else value a <? value b.

(** [np.prod(l)] for a list of Python ints: an [int64], but the float [1.0]
    for the empty list. *)
Definition np_prod (l : list Z) : Number :=
  match l with
  | [] => Float64 1
  | _ :: _ => Int (wrap64 (product l))
  end.

(** What [np.array(l)] holds: the integers of [l], all read as binary64 as
    soon as one element of [l] is a [float64]. *)
Definition np_array (l : list Number) : list Z :=
  if existsb is_float64 l then map (fun a => to_binary64 (value a)) l
  else map value l.

(** The first index of the least element, from [best] at [best_i] on. *)
Fixpoint argmin_loop (l : list Z) (i : nat) (best : Z) (best_i : nat) : nat :=
  match l with
  | [] => best_i
  | a :: l' =>
      if a <? best then argmin_loop l' (S i) a i
      else argmin_loop l' (S i) best best_i
  end.

(** [np.argmin(l)]: the first index of the least element of [np.array(l)];
    [None] is the [ValueError] of an empty sequence. *)
Definition np_argmin (l : list Number) : option nat :=
  match np_array l with
  | [] => None
  | a :: l' => Some (argmin_loop l' 1 a 0)
  end.

(** [a / b] on Python floats; [None] is [ZeroDivisionError]. *)
Definition float_div (a b : float) : option float :=
  if PrimFloat.eqb b 0%float then None else Some (PrimFloat.div a b).

(** [int(x)]: the integer part towards zero; [None] is the [OverflowError]
    of an infinity or the [ValueError] of a nan. *)
Definition py_int (x : float) : option Z :=
  match Prim2SF x with
  | S754_zero _ => Some 0
  | S754_finite s m e =>
      let a := if 0 <=? e then Z.pos m * 2 ^ e else Z.pos m `quot` 2 ^ (- e) in
      Some (if s then - a else a)
  | S754_infinity _ | S754_nan => None
  end.

(** [float(n)] for the length of a collection. *)
Definition float_of_len (n : nat) : float :=
  PrimFloat.of_uint63 (Uint63.of_Z (Z.of_nat n)).

End Py.

Import Py.

(** ** Data model *)

(** A contraction-path entry: the ids of the two nodes to contract. *)
Definition Contraction : Type := Z * Z.

(** What the planner reads of a node: [.edges], [.tensor.shape] and
    [.get_all_dangling()]. *)
Record Node (Edge : Type) := mkNode {
  edges : list Edge;
  tensor_shape : list Z;
  get_all_dangling : list Edge;
}.
Arguments mkNode {Edge} _ _ _.
Arguments edges {Edge} _.
Arguments tensor_shape {Edge} _.
Arguments get_all_dangling {Edge} _.

(** [.tensor.size]: the number of elements of the tensor, a Python [int]
    (that of an array is below [2 ^ 63]). *)
Definition tensor_size {Edge : Type} (U : Node Edge) : Z :=
  product (tensor_shape U).

(** The operations the planner consumes from the network.  [node_at x i] is
    [x[i]]; [get_node_index_node1 x e] is [x.get_node_index(e.node1)]; the
    mutators return the network after the call. *)
Class TensorNetwork (Edge TN : Type) := {
  get_edges_to_sketch : TN -> list Edge;
  node_at : TN -> Z -> option (Node Edge);
  get_node_index_node1 : TN -> Edge -> option Z;
  sketch : TN -> Edge -> Z -> option TN;
  contract : TN -> Z -> Z -> option TN;
  tree_sketch_and_contract : TN -> Z -> Z -> Z -> option TN;
  tn_sketch_and_contract_s : TN -> Z -> Z -> Z -> option TN;
}.

(** The numeric library functions of [calc_m] that binary64 arithmetic does
    not define: [np.log] and the float power [b ** n] ([None] is its
    [OverflowError]). *)
Class FloatLib := {
  np_log : float -> float;
  float_pow : float -> Z -> option float;
}.

(** The calls issued on the network, in order. *)
Inductive Call (Edge : Type) :=
| CallSketch (e : Edge) (m : Z)
| CallContract (i j : Z)
| CallTnSketchAndContract (i j m : Z)
| CallTreeSketchAndContract (i j m : Z).
Arguments CallSketch {Edge} _ _.
Arguments CallContract {Edge} _ _.
Arguments CallTnSketchAndContract {Edge} _ _ _.
Arguments CallTreeSketchAndContract {Edge} _ _ _.

(** The object [EfficientGaussianEmb.__init__] builds. *)
Record EfficientGaussianEmb := mkEmb {
  eps : float;
  delta : float;
  m_scalar : float;
  is_tn_embedding : bool;
}.

(** [EfficientGaussianEmb(eps, delta, m_scalar, is_tn_embedding)]. *)
Definition __init__ (eps delta m_scalar : float) (is_tn_embedding : bool)
    : option EfficientGaussianEmb :=
  Some (mkEmb eps delta m_scalar is_tn_embedding).

(** ** The planner *)

Section Planner.
Context {Edge TN : Type} `{EqDecision Edge} `{!TensorNetwork Edge TN} `{!FloatLib}.

Implicit Types (x : TN) (e : Edge) (c : Contraction) (U V : Node Edge).

(** The partition: [D], [S] (written [S_]) and [I_S]. *)
Definition Partition : Type :=
  list (Edge * list Contraction) * list Contraction * list Contraction.

(** [calc_m]. *)
Definition calc_m (self : EfficientGaussianEmb) x : option Z :=
  inv ← float_div 1%float (delta self);
  sq ← float_pow (eps self) 2;
  let m_theta :=
    PrimFloat.div
      (PrimFloat.mul (float_of_len (length (get_edges_to_sketch x))) (np_log inv))
      sq in
  m ← py_int (PrimFloat.mul m_theta (m_scalar self));
  Some (Z.max m 1).

(** The body of the loop of [_partition_contractions]. *)
Definition partition_step x (acc : Partition) c : option Partition :=
  let '(D, S_, I_S) := acc in
  u_i ← node_at x c.1;
  v_i ← node_at x c.2;
  let u_i_dangling := get_all_dangling u_i in
  let v_i_dangling := get_all_dangling v_i in
  let u_i_dims_to_sketch := length u_i_dangling in
  let v_i_dims_to_sketch := length v_i_dangling in
  if negb (Nat.eqb u_i_dims_to_sketch 0) && negb (Nat.eqb v_i_dims_to_sketch 0)
  then Some (D, S_ ++ [c], I_S ++ [c])
  else if Nat.eqb u_i_dims_to_sketch 1
  then e ← head u_i_dangling; D' ← dict_append D e c; Some (D', S_, I_S)
  else if Nat.eqb v_i_dims_to_sketch 1
  then e ← head v_i_dangling; D' ← dict_append D e c; Some (D', S_, I_S)
  else Some (D, S_, I_S ++ [c]).

Fixpoint partition_loop x (acc : Partition) (contraction_path : list Contraction)
    : option Partition :=
  match contraction_path with
  | [] => Some acc
  | c :: rest => acc' ← partition_step x acc c; partition_loop x acc' rest
  end.

(** [_partition_contractions]. *)
Definition _partition_contractions x (contraction_path : list Contraction)
    (edges_to_sketch : list Edge) : option Partition :=
  partition_loop x (dict_from_keys edges_to_sketch [], [], []) contraction_path.

(** [U_edges = {edge: current_shape[i] for i, edge in enumerate(U.edges)}];
    [None] is the [IndexError] of a node with more edges than dimensions. *)
Fixpoint build_U_edges (es : list Edge) (shape : list Z) (i : nat)
    (acc : list (Edge * Z)) : option (list (Edge * Z)) :=
  match es with
  | [] => Some acc
  | e :: es' => d ← shape !! i; build_U_edges es' shape (S i) (dict_set acc e d)
  end.

(** The list [contracted_indices] of one step: for every edge of [U] that is
    also an edge of [V], the size recorded for it. *)
Definition contracted_indices (U_edges : list (Edge * Z)) U V : option (list Z) :=
  mapM (dict_get U_edges) (filter (fun e => e ∈ edges V) (edges U)).

(** [new_shape] of one step. *)
Definition new_shape (ci : list Z) (current_shape : list Z) V : list Z :=
  filter (fun dim => dim ∉ ci) current_shape
  ++ filter (fun dim => dim ∉ ci) (tensor_shape V).

(** The loop of [_contraction_path_minimize_U]. *)
Fixpoint minimize_loop (U_edges : list (Edge * Z)) U (contraction_order : list (Node Edge))
    (i : Z) (current_shape : list Z) (min_U_size : Number) (min_index : Z)
    : option (Number * Z) :=
  match contraction_order with
  | [] => Some (min_U_size, min_index)
  | V :: rest =>
      ci ← contracted_indices U_edges U V;
      let shape' := new_shape ci current_shape V in
      let new_U_size := np_prod shape' in
      if number_ltb new_U_size min_U_size
      then minimize_loop U_edges U rest (i + 1) shape' new_U_size i
      else minimize_loop U_edges U rest (i + 1) shape' min_U_size min_index
  end.

(** [_contraction_path_minimize_U]. *)
Definition _contraction_path_minimize_U U (contraction_order : list (Node Edge))
    : option (Number * Z) :=
  U_edges ← build_U_edges (edges U) (tensor_shape U) 0 [];
  minimize_loop U_edges U contraction_order 0 (tensor_shape U) (Int (tensor_size U)) (-1).

(** [j_nodes = [u if v == i else v for u, v in D_e_i]]. *)
Definition j_nodes (D_e_i : list Contraction) (i : Z) : list Z :=
  map (fun c : Contraction => if c.2 =? i then c.1 else c.2) D_e_i.

(** One round of the loop over the permutations: the least size and its
    index for that order. *)
Definition permutation_cost x U (permutation : list Z) : option (Number * Z) :=
  contraction_nodes ← mapM (node_at x) permutation;
  _contraction_path_minimize_U U contraction_nodes.

(** [_calculate_contraction_path_shapes]: the plan, a list of [(i, j)] with
    [j = None] for the sketch. *)
Definition _calculate_contraction_path_shapes x (D_e_i : list Contraction) (i : Z)
    : option (list (Z * option Z)) :=
  u ← node_at x i;
  let contractions_permutations := permutations (j_nodes D_e_i i) in
  costs ← mapM (permutation_cost x u) contractions_permutations;
  let u_possible_sizes := costs.*1 in
  let u_possible_sketching_index := costs.*2 in
  chosen_path_index ← np_argmin u_possible_sizes;
  sketch_index ← u_possible_sketching_index !! chosen_path_index;
  chosen_path ← contractions_permutations !! chosen_path_index;
  let chosen_path :=
    list_insert_at (Z.to_nat (sketch_index + 1)) None (Some <$> chosen_path) in
  Some (pair i <$> chosen_path).

(** The network together with the calls issued on it so far. *)
Definition Run : Type := TN * list (Call Edge).

Definition call_sketch e (m : Z) (st : Run) : option Run :=
  x' ← sketch st.1 e m; Some (x', st.2 ++ [CallSketch e m]).

Definition call_contract (i j : Z) (st : Run) : option Run :=
  x' ← contract st.1 i j; Some (x', st.2 ++ [CallContract i j]).

Definition call_tn_sketch_and_contract_s (i j m : Z) (st : Run) : option Run :=
  x' ← tn_sketch_and_contract_s st.1 i j m;
  Some (x', st.2 ++ [CallTnSketchAndContract i j m]).

Definition call_tree_sketch_and_contract (i j m : Z) (st : Run) : option Run :=
  x' ← tree_sketch_and_contract st.1 i j m;
  Some (x', st.2 ++ [CallTreeSketchAndContract i j m]).

(** A [for] loop whose body acts on the network. *)
Fixpoint for_each {A : Type} (body : A -> Run -> option Run) (l : list A) (st : Run)
    : option Run :=
  match l with
  | [] => Some st
  | a :: l' => st' ← body a st; for_each body l' st'
  end.

(** The loop that executes a plan for the edge [e]. *)
Definition run_plan e (m : Z) (plan : list (Z * option Z)) : Run -> option Run :=
  for_each (fun '(i, j) =>
    match j with
    | None => call_sketch e m
    | Some j => call_contract i j
    end) plan.

(** The body of the loop of [_contract_and_sketch_kronecker_product]. *)
Definition kronecker_group (m : Z) (item : Edge * list Contraction) (st : Run)
    : option Run :=
  let '(e, D_e_i) := item in
  if Nat.eqb (length D_e_i) 0 then call_sketch e m st
  else
    e_i_hat_node_index ← get_node_index_node1 st.1 e;
    minimal_contraction_path ←
      _calculate_contraction_path_shapes st.1 D_e_i e_i_hat_node_index;
    run_plan e m minimal_contraction_path st.

(** [_contract_and_sketch_kronecker_product]. *)
Definition _contract_and_sketch_kronecker_product
    (D : list (Edge * list Contraction)) (m : Z) : Run -> option Run :=
  for_each (kronecker_group m) D.

(** The body of the loop of [_contract_and_sketch_tree_embedding]. *)
Definition tree_step (self : EfficientGaussianEmb) (S_ : list Contraction) (m : Z)
    (c : Contraction) : Run -> option Run :=
  if decide (c ∈ S_)
  then if is_tn_embedding self
       then call_tn_sketch_and_contract_s c.1 c.2 m
       else call_tree_sketch_and_contract c.1 c.2 m
  else call_contract c.1 c.2.

(** [_contract_and_sketch_tree_embedding]. *)
Definition _contract_and_sketch_tree_embedding (self : EfficientGaussianEmb)
    (S_ I_S : list Contraction) (m : Z) : Run -> option Run :=
  for_each (tree_step self S_ m) I_S.

(** [embed]: the embedded network and the calls that produced it. *)
Definition embed (self : EfficientGaussianEmb) x (contraction_path : list Contraction)
    : option Run :=
  let edges_to_be_sketched := get_edges_to_sketch x in
  m ← calc_m self x;
  '(D, S_, I_S) ← _partition_contractions x contraction_path edges_to_be_sketched;
  st ← _contract_and_sketch_kronecker_product D m (x, []);
  _contract_and_sketch_tree_embedding self S_ I_S m st.

End Planner.

(** ** Instruments of the cost simulation *)

Section Simulation.
Context {Edge TN : Type} `{EqDecision Edge} `{!TensorNetwork Edge TN}.

Implicit Types (x : TN) (U V : Node Edge).

(** The shapes [current_shape] runs through in the loop of
    [_contraction_path_minimize_U], one per step. *)
Fixpoint tracked_shapes (U_edges : list (Edge * Z)) U
    (contraction_order : list (Node Edge)) (current_shape : list Z)
    : option (list (list Z)) :=
  match contraction_order with
  | [] => Some []
  | V :: rest =>
      ci ← contracted_indices U_edges U V;
      let shape' := new_shape ci current_shape V in
      cons shape' <$> tracked_shapes U_edges U rest shape'
  end.

(** The size of a tracked shape: the integer [np.prod] gives. *)
Definition shape_size (shape : list Z) : Z := value (np_prod shape).

(** The sizes [new_U_size] of the steps, for the partners [permutation]. *)
Definition simulated_sizes x U (permutation : list Z) : option (list Z) :=
  contraction_nodes ← mapM (node_at x) permutation;
  U_edges ← build_U_edges (edges U) (tensor_shape U) 0 [];
  shapes ← tracked_shapes U_edges U contraction_nodes (tensor_shape U);
  Some (map shape_size shapes).

(** The least size the anchor reaches: its size before the first step, or
    the size after one of the steps. *)
Definition min_achieved U (sizes : list Z) : Z :=
  foldr Z.min (tensor_size U) sizes.

(** The step after which the least size is first reached, [-1] when no step
    goes below the starting size. *)
Fixpoint first_min_step (sizes : list Z) (i : Z) (least step : Z) : Z :=
  match sizes with
  | [] => step
  | s :: rest =>
      if s <? least then first_min_step rest (i + 1) s i
      else first_min_step rest (i + 1) least step
  end.


(** The integers binary64 holds as they are. *)
Definition binary64_exact (s : Z) : Prop := - 2 ^ 53 <= s <= 2 ^ 53.

(** Every order of the partners has a least size that binary64 holds as it
    is: [np.argmin] then compares the least sizes as the integers do. *)
Definition least_sizes_exact x U (partners : list Z) : Prop :=
  forall p sizes_p,
    p ≡ₚ partners ->
    simulated_sizes x U p = Some sizes_p ->
    binary64_exact (min_achieved U sizes_p).

(** The same, by running through the permutations. *)
Definition least_sizes_exactb x U (partners : list Z) : bool :=
  forallb (fun p =>
    match simulated_sizes x U p with
    | Some sizes_p =>
        (- 2 ^ 53 <=? min_achieved U sizes_p) && (min_achieved U sizes_p <=? 2 ^ 53)
    | None => true
    end) (permutations partners).

(** The partners of a plan, in order, without the sketch marker. *)
Definition plan_partners (plan : list (Z * option Z)) : list Z :=
  omap snd plan.

(** A tensor whose dimensions carry their edges. *)
Definition labelled U : list (Edge * Z) := zip (edges U) (tensor_shape U).

(** Contraction by edge identity: the dimensions whose edge is shared with
    the partner go, the partner's other dimensions are appended. *)
Definition contract_labelled (current : list (Edge * Z)) V : list (Edge * Z) :=
  filter (fun p => p.1 ∉ edges V) current
  ++ filter (fun p => p.1 ∉ current.*1) (labelled V).

(** The shapes after each contraction, by edge identity. *)
Fixpoint contracted_shapes (current : list (Edge * Z))
    (contraction_order : list (Node Edge)) : list (list Z) :=
  match contraction_order with
  | [] => []
  | V :: rest =>
      let current' := contract_labelled current V in
      current'.*2 :: contracted_shapes current' rest
  end.

(** [U] carries [e] as its only pending sketch dimension. *)
Definition sole_pending U (e : Edge) : Prop := get_all_dangling U = [e].

(** Exactly one operand of the contraction [c] carries [e] as its only
    pending sketch dimension. *)
Definition one_sole_carrier x (c : Contraction) (e : Edge) : Prop :=
  exists u_i v_i,
    node_at x c.1 = Some u_i /\ node_at x c.2 = Some v_i /\
    ((sole_pending u_i e /\ ~ sole_pending v_i e) \/
     (~ sole_pending u_i e /\ sole_pending v_i e)).

(** One operand of [c] carries [e] as its only pending sketch dimension and
    the other operand has no pending sketch dimension. *)
Definition single_reduce x (c : Contraction) (e : Edge) : Prop :=
  exists u_i v_i,
    node_at x c.1 = Some u_i /\ node_at x c.2 = Some v_i /\
    ((get_all_dangling u_i = [e] /\ get_all_dangling v_i = []) \/
     (get_all_dangling u_i = [] /\ get_all_dangling v_i = [e])).

(** The greatest integer that is not above a finite float. *)
Definition float_floor (a : float) : option Z :=
  match Prim2SF a with
  | S754_zero _ => Some 0
  | S754_finite s m e =>
      let n := if s then Z.neg m else Z.pos m in
      Some (if 0 <=? e then n * 2 ^ e else n / 2 ^ (- e))
  | S754_infinity _ | S754_nan => None
  end.

(** Accuracy parameters out of range: [eps <= 0], or [delta] outside the
    open interval from 0 to 1. *)
Definition invalid_accuracy (eps delta : float) : bool :=
  PrimFloat.leb eps 0%float
  || negb (PrimFloat.ltb 0%float delta && PrimFloat.ltb delta 1%float).

(** What holds of the three accumulators after any number of rounds. *)
Definition partition_inv x (processed : list Contraction) (acc : Partition (Edge:=Edge)) : Prop :=
  let '(D, S_, I_S) := acc in
  (forall e l c, dict_get D e = Some l -> c ∈ l -> single_reduce x c e) /\
  (forall c, c ∈ I_S -> forall e, ~ single_reduce x c e) /\
  S_ `sublist_of` I_S /\
  processed ≡ₚ I_S ++ concat D.*2.



(** The calls of a run that are a sketch, of any edge. *)
Definition is_sketch (k : Call Edge) : bool :=
  match k with
  | CallSketch _ _ => true
  | _ => false
  end.

(** The plain contractions of a run. *)
Definition is_contract (k : Call Edge) : bool :=
  match k with
  | CallContract _ _ => true
  | _ => false
  end.

(** The operand of the contraction [c] that is not the anchor [i]. *)
Definition other_operand (i : Z) (c : Contraction) : Z :=
  if decide (c.1 = i) then c.2 else c.1.

(** The call a plan entry stands for. *)
Definition plan_call (e : Edge) (m : Z) (entry : Z * option Z) : Call Edge :=
  match entry.2 with
  | None => CallSketch e m
  | Some j => CallContract entry.1 j
  end.

(** The call the tree-embedding pass is to issue for an entry of [I_S]. *)
Definition tree_call (tn : bool) (S_ : list Contraction) (m : Z) (c : Contraction)
    : Call Edge :=
  if decide (c ∈ S_)
  then if tn then CallTnSketchAndContract c.1 c.2 m
       else CallTreeSketchAndContract c.1 c.2 m
  else CallContract c.1 c.2.


(** The tracked shape of every step is the shape of the contraction by edge
    identity. *)
Definition shapes_tracked_by_edge U (contraction_order : list (Node Edge)) : Prop :=
  forall U_edges shapes,
    build_U_edges (edges U) (tensor_shape U) 0 [] = Some U_edges ->
    tracked_shapes U_edges U contraction_order (tensor_shape U) = Some shapes ->
    shapes = contracted_shapes (labelled U) contraction_order.

End Simulation.

(** ** A sample network

    Modelled from the spec: the interface of the network (section 6), for
    the examples only.  Nodes are stored by id and each dimension is
    labelled by its edge.  [contract(i, j)] fuses nodes [i] and [j] into one
    node, consuming both: here the fused node takes the id [i].
    [sketch(edge, m)] replaces the dangling dimension by one of size [m].
    The joint operations fuse like [contract]: what they sketch is left to
    the network. *)

Module Sample.

Record Net := mkNet {
  nodes : list (Z * Node nat);
  to_sketch : list nat;
}.

Definition fuse (U V : Node nat) : Node nat :=
  let dims := contract_labelled (labelled U) V in
  mkNode dims.*1 dims.*2 (get_all_dangling U ++ get_all_dangling V).

Definition net_contract (x : Net) (i j : Z) : option Net :=
  if decide (i = j) then None
  else
    U ← dict_get (nodes x) i;
    V ← dict_get (nodes x) j;
    Some (mkNet (dict_set (filter (fun p => p.1 ≠ j) (nodes x)) i (fuse U V))
                (to_sketch x)).

Definition resize (e : nat) (m : Z) (U : Node nat) : Node nat :=
  mkNode (edges U)
         ((fun p : nat * Z => if decide (p.1 = e) then m else p.2) <$> labelled U)
         (filter (fun e' => e' ≠ e) (get_all_dangling U)).

Definition net_sketch (x : Net) (e : nat) (m : Z) : option Net :=
  if decide (e ∈ to_sketch x)
  then Some (mkNet ((fun p : Z * Node nat => (p.1, resize e m p.2)) <$> nodes x)
                   (filter (fun e' => e' ≠ e) (to_sketch x)))
  else None.

Definition net_node1_index (x : Net) (e : nat) : option Z :=
  (fun p : nat * (Z * Node nat) => p.2.1)
    <$> list_find (fun p : Z * Node nat => e ∈ edges p.2) (nodes x).

#[export] Instance sample_network : TensorNetwork nat Net := {
  get_edges_to_sketch := to_sketch;
  node_at x i := dict_get (nodes x) i;
  get_node_index_node1 := net_node1_index;
  sketch := net_sketch;
  contract := net_contract;
  tree_sketch_and_contract x i j m := net_contract x i j;
  tn_sketch_and_contract_s x i j m := net_contract x i j;
}.

(** [np.log] at the arguments the examples use, and the square of a float:
    [b ** 2] is the product [b * b], and raises [OverflowError] when a
    finite [b] has an infinite square. *)
#[export] Instance sample_floats : FloatLib := {
  np_log a :=
    if PrimFloat.eqb a 20%float then 0x1.7f7427b73e391p+1%float
    else if PrimFloat.eqb a 1%float then 0%float
    else PrimFloat.nan;
  float_pow b n :=
    if n =? 2
    then if PrimFloat.is_finite b && PrimFloat.is_infinity (PrimFloat.mul b b)
         then None
         else Some (PrimFloat.mul b b)
    else None;
}.

(** Six nodes: nodes 0, 2 and 3 carry the edges to sketch 1, 3 and 5. *)
Definition net1 : Net :=
  mkNet [ (0, mkNode [0; 1]%nat [2; 3] [1]%nat);
          (1, mkNode [0; 2]%nat [2; 4] []);
          (2, mkNode [2; 3; 4]%nat [4; 5; 2] [3]%nat);
          (3, mkNode [4; 5]%nat [2; 6] [5]%nat);
          (4, mkNode [6]%nat [7] []);
          (5, mkNode [6]%nat [7] []) ]
        [1; 3; 5]%nat.

Definition path1 : list Contraction := [(0, 1); (2, 3); (4, 5); (0, 2)].

(** An anchor (node 0, edge 2 to sketch) with two partners. *)
Definition net2 : Net :=
  mkNet [ (0, mkNode [0; 1; 2]%nat [4; 2; 5] [2]%nat);
          (1, mkNode [0; 5]%nat [4; 3] []);
          (2, mkNode [1; 3; 4]%nat [2; 4; 4] []) ]
        [2]%nat.

Definition path2 : list Contraction := [(0, 2); (0, 1)].

(** An anchor of shape (2, 3, 5) whose edge 2, of size 5, is to sketch, and
    two partners: node 1 shares with it the dimension of size 2, node 2 the
    dimension of size 3. *)
Definition net3 : Net :=
  mkNet [ (0, mkNode [0; 1; 2]%nat [2; 3; 5] [2]%nat);
          (1, mkNode [0]%nat [2] []);
          (2, mkNode [1]%nat [3] []) ]
        [2]%nat.

Definition path3 : list Contraction := [(0, 1); (0, 2)].



(** Two nodes that share edge 0; both dimensions of the first have size 2. *)
Definition node_u : Node nat := mkNode [0; 1]%nat [2; 2] [1]%nat.
Definition node_v : Node nat := mkNode [0; 2]%nat [2; 3] [].

(** A network with ten edges to sketch and no node. *)
Definition net10 : Net := mkNet [] (seq 0 10).

(** [eps = 0.1], [delta = 0.05], [m_scalar = 5], tree embedding. *)
Definition emb1 : EfficientGaussianEmb :=
  mkEmb 0x1.999999999999ap-4%float 0x1.999999999999ap-5%float 5%float false.

(** [eps = 2 ** -700], [delta = 0.05], [m_scalar = 5]: the square of [eps]
    is below the least positive binary64 and underflows to zero. *)
Definition emb_small_eps : EfficientGaussianEmb :=
  mkEmb 0x1p-700%float 0x1.999999999999ap-5%float 5%float false.

(** [eps = 2 ** 600], [delta = 0.05], [m_scalar = 5]: the square of [eps]
    is above the greatest binary64. *)
Definition emb_large_eps : EfficientGaussianEmb :=
  mkEmb 0x1p+600%float 0x1.999999999999ap-5%float 5%float false.

(** The run of [embed] on the first network. *)
Definition embedded1 : Net :=
  Eval vm_compute in
    match embed emb1 net1 path1 with Some st => st.1 | None => net1 end.

Definition calls1 : list (Call nat) :=
  Eval vm_compute in
    match embed emb1 net1 path1 with Some st => st.2 | None => [] end.

Definition partition1 : Partition :=
  Eval vm_compute in
    match _partition_contractions net1 path1 (to_sketch net1) with
    | Some p => p
    | None => ([], [], [])
    end.

(** The run of the Kronecker pass on the group of edge 2 of the second
    network. *)
Definition group2 : Run :=
  Eval vm_compute in
    match kronecker_group 7 (2%nat, path2) (net2, []) with
    | Some st => st
    | None => (net2, [])
    end.

(** The run of the tree-embedding pass on the first network. *)
Definition tree1 : Run :=
  Eval vm_compute in
    match _contract_and_sketch_tree_embedding emb1 partition1.1.2 partition1.2 7 (net1, []) with
    | Some st => st
    | None => (net1, [])
    end.

End Sample.

(** ** Routing of one contraction *)

Section Routing.
Context {Edge TN : Type} `{EqDecision Edge} `{!TensorNetwork Edge TN}.

Implicit Types (x : TN) (e : Edge) (c : Contraction).

(** The dangling edges to sketch of the node [i], none when [i] is not a
    node. *)
Definition dangling_of x (i : Z) : list Edge :=
  match node_at x i with
  | Some U => get_all_dangling U
  | None => []
  end.

(** Both operands of [c] are nodes of the network. *)
Definition known x c : bool :=
  bool_decide (is_Some (node_at x c.1)) && bool_decide (is_Some (node_at x c.2)).

(** Both operands of [c] have a dangling dimension to sketch. *)
Definition both_pending x c : bool :=
  negb (Nat.eqb (length (dangling_of x c.1)) 0)
  && negb (Nat.eqb (length (dangling_of x c.2)) 0).

(** The edge whose bucket receives [c], if any: the only dangling edge of
    the first operand, else of the second, when the other has none. *)
Definition bucket_of x c : option Edge :=
  if both_pending x c then None
  else if Nat.eqb (length (dangling_of x c.1)) 1 then head (dangling_of x c.1)
  else if Nat.eqb (length (dangling_of x c.2)) 1 then head (dangling_of x c.2)
  else None.

End Routing.

(** ** Sizes by edge *)

(** Every dimension of [V] has the size [size] gives to its edge. *)
Definition well_labelled {Edge : Type} (size : Edge -> Z) (V : Node Edge) : Prop :=
  tensor_shape V = size <$> edges V.

(** ** Classes of floats *)

(** A float that is neither an infinity nor a nan. *)
Definition float_is_finite (a : float) : bool :=
  match Prim2SF a with
  | S754_zero _ | S754_finite _ _ _ => true
  | S754_infinity _ | S754_nan => false
  end.

(** A float that is neither a zero nor a nan. *)
Definition float_is_nonzero_number (a : float) : bool :=
  match Prim2SF a with
  | S754_finite _ _ _ | S754_infinity _ => true
  | S754_zero _ | S754_nan => false
  end.

(** ** The folders of the experiments

    [experiments/run_experiments.py]: [create_folders] on a file system seen
    from the working directory.  A path is the list of its components, and
    the file system says what is at a path: a directory or a file.
    Permissions and the other errors of the system are left out. *)

Module Os.

Inductive kind := Dir | File.

Fixpoint split_slash (s cur : string) : list string :=
  match s with
  | EmptyString => [cur]
  | String a s' =>
      if Ascii.eqb a "/"%char then cur :: split_slash s' EmptyString
      else split_slash s' (cur +:+ String a EmptyString)
  end.

(** The components of a relative path, without the empty ones and [.]. *)
Definition components (name : string) : list string :=
  filter (fun d => d <> EmptyString /\ d <> "."%string) (split_slash name EmptyString).

(** [os.makedirs(name, exist_ok=True)], one component after the other: a
    directory that is there is kept, one that is missing is made, and
    anything else in the way raises ([None]). *)
Fixpoint makedirs_from (fs : gmap (list string) kind) (above names : list string)
    : option (gmap (list string) kind) :=
  match names with
  | [] => Some fs
  | d :: rest =>
      match fs !! (above ++ [d]) with
      | Some Dir => makedirs_from fs (above ++ [d]) rest
      | Some File => None
      | None => makedirs_from (<[above ++ [d] := Dir]> fs) (above ++ [d]) rest
      end
  end.

Definition makedirs (name : string) (fs : gmap (list string) kind)
    : option (gmap (list string) kind) :=
  makedirs_from fs [] (components name).

(** The paths [makedirs_from] goes through. *)
Fixpoint ancestors (above names : list string) : list (list string) :=
  match names with
  | [] => []
  | d :: rest => (above ++ [d]) :: ancestors (above ++ [d]) rest
  end.

End Os.

(** [create_folders]. *)
Definition create_folders (fs : gmap (list string) Os.kind)
    : option (gmap (list string) Os.kind) :=
  fs1 ← Os.makedirs "./results/graphs" fs;
  fs2 ← Os.makedirs "./results/kronecker_order_test" fs1;
  Os.makedirs "./results/tt_rank_test" fs2.

(** The directories [create_folders] is to provide. *)
Definition results_folders : list (list string) :=
  [ ["results"]; ["results"; "graphs"]; ["results"; "kronecker_order_test"];
    ["results"; "tt_rank_test"] ]%string.

(** ** More sample inputs *)

Module MoreSamples.
Import Sample.

(** A network without nodes and without edges to sketch. *)
Definition net0 : Net := mkNet [] [].

(** [eps = 0.1], [delta = 1], [m_scalar = 5]. *)
Definition emb_delta_one : EfficientGaussianEmb :=
  mkEmb 0x1.999999999999ap-4%float 1%float 5%float false.

(** Edge [e] has size [e + 2]. *)
Definition size_of (e : nat) : Z := Z.of_nat e + 2.

(** An anchor and two partners whose dimensions have the sizes of their
    edges; the partners share edges 0 and 1 with the anchor. *)
Definition anchor3 : Node nat := mkNode [0; 1; 2]%nat [2; 3; 4] [2]%nat.

Definition partners3 : list (Node nat) :=
  [mkNode [0; 5]%nat [2; 7] []; mkNode [1; 6]%nat [3; 8] []].

(** The run of [embed] on the first network with an empty path. *)
Definition sketched1 : Run :=
  Eval vm_compute in
    match embed emb1 net1 [] with Some st => st | None => (net1, []) end.

End MoreSamples.

(** ** Properties of the primitives *)

Section DictFacts.
Context {K A : Type} `{EqDecision K}.

Implicit Types (D : list (K * list A)) (k : K) (c : A).

Lemma dict_append_get D k c D' :
  dict_append D k c = Some D' ->
  forall k', dict_get D' k' =
    if decide (k' = k) then (fun l => l ++ [c]) <$> dict_get D k' else dict_get D k'.
Proof.
  revert D'. induction D as [|[k0 l0] D IH]; intros D' Happ k'; simpl in *.
  - discriminate.
  - destruct (decide (k0 = k)) as [->|Hne].
    + inversion Happ; subst; clear Happ. simpl.
      destruct (decide (k = k')) as [->|Hk].
      * rewrite decide_True by done. done.
      * rewrite decide_False by congruence. done.
    + destruct (dict_append D k c) as [D1|] eqn:E; simpl in Happ; [|discriminate].
      inversion Happ; subst; clear Happ. simpl.
      destruct (decide (k0 = k')) as [->|Hk].
      * rewrite decide_False by congruence. done.
      * by apply IH.
Qed.

Lemma dict_append_is_Some D k c :
  is_Some (dict_append D k c) <-> is_Some (dict_get D k).
Proof.
  induction D as [|[k0 l0] D IH]; simpl.
  - split; intros [? ?]; discriminate.
  - destruct (decide (k0 = k)); [split; eauto|].
    rewrite <- IH. rewrite fmap_is_Some. done.
Qed.

Lemma dict_append_keys D k c D' :
  dict_append D k c = Some D' -> D'.*1 = D.*1.
Proof.
  revert D'. induction D as [|[k0 l0] D IH]; intros D' Happ; simpl in *.
  - discriminate.
  - destruct (decide (k0 = k)).
    + by inversion Happ.
    + destruct (dict_append D k c) as [D1|]; simpl in Happ; [|discriminate].
      inversion Happ; subst. simpl. f_equal. by apply IH.
Qed.

Lemma dict_append_concat D k c D' :
  dict_append D k c = Some D' -> concat D'.*2 ≡ₚ c :: concat D.*2.
Proof.
  revert D'. induction D as [|[k0 l0] D IH]; intros D' Happ; simpl in *.
  - discriminate.
  - destruct (decide (k0 = k)).
    + inversion Happ; subst; simpl.
      rewrite <- (assoc_L (++)). simpl.
      by rewrite <- Permutation_middle.
    + destruct (dict_append D k c) as [D1|]; simpl in Happ; [|discriminate].
      inversion Happ; subst. simpl. rewrite (IH D1 eq_refl).
      by rewrite <- Permutation_middle.
Qed.

Lemma dict_get_elem_of {V : Type} (D : list (K * V)) k v :
  dict_get D k = Some v -> (k, v) ∈ D.
Proof.
  induction D as [|[k0 v0] D IH]; simpl; [done|].
  destruct (decide (k0 = k)) as [->|].
  - intros [= ->]. left.
  - intros. right. auto.
Qed.

Lemma dict_set_keys {V : Type} (D : list (K * V)) k v :
  (dict_set D k v).*1 = if decide (k ∈ D.*1) then D.*1 else D.*1 ++ [k].
Proof.
  induction D as [|[k0 v0] D IH]; csimpl; [done|].
  destruct (decide (k0 = k)) as [->|Hne]; csimpl.
  - rewrite decide_True by left. done.
  - rewrite IH. destruct (decide (k ∈ D.*1)) as [Hin|Hnin].
    + rewrite decide_True by (by right). done.
    + rewrite decide_False; [done|]. rewrite elem_of_cons. intros [?|?]; congruence.
Qed.

Lemma dict_set_get {V : Type} (D : list (K * V)) k v k' :
  dict_get (dict_set D k v) k' = if decide (k' = k) then Some v else dict_get D k'.
Proof.
  induction D as [|[k0 v0] D IH]; simpl.
  - destruct (decide (k = k')) as [->|]; [by rewrite decide_True|].
    by rewrite decide_False by congruence.
  - destruct (decide (k0 = k)) as [->|Hne]; simpl.
    + destruct (decide (k = k')) as [->|]; [by rewrite decide_True|].
      by rewrite decide_False by congruence.
    + destruct (decide (k0 = k')) as [->|]; [|done].
      by rewrite decide_False by congruence.
Qed.

Lemma dict_from_keys_keys {V : Type} (ks : list K) (v : V) :
  NoDup (dict_from_keys ks v).*1 /\ forall k, k ∈ (dict_from_keys ks v).*1 <-> k ∈ ks.
Proof.
  unfold dict_from_keys.
  assert (G : forall (M : list (K * V)), NoDup M.*1 ->
    NoDup (foldl (fun M k => dict_set M k v) M ks).*1 /\
    forall k, k ∈ (foldl (fun M k => dict_set M k v) M ks).*1 <-> k ∈ M.*1 \/ k ∈ ks).
  { induction ks as [|k0 ks IH]; intros M HM; simpl.
    - split; [done|]. intros k. rewrite elem_of_nil. tauto.
    - destruct (IH (dict_set M k0 v)) as [IH1 IH2].
      + rewrite dict_set_keys. case_decide; [done|].
        apply NoDup_app. split_and!; [done| |apply NoDup_singleton].
        intros k Hk ->%list_elem_of_singleton. done.
      + split; [done|]. intros k. rewrite IH2, dict_set_keys, elem_of_cons.
        case_decide; [naive_solver|].
        rewrite elem_of_app, list_elem_of_singleton. naive_solver. }
  destruct (G [] (NoDup_nil_2)) as [G1 G2]. split; [done|].
  intros k. rewrite G2. simpl. rewrite elem_of_nil. tauto.
Qed.

End DictFacts.

(** ** The contraction partitioner *)

Section PartitionFacts.
Context {Edge TN : Type} `{EqDecision Edge} `{!TensorNetwork Edge TN}.

Implicit Types (x : TN) (e : Edge) (c : Contraction) (U V : Node Edge).
Implicit Types (D : list (Edge * list Contraction)) (I_S : list Contraction).

Lemma partition_loop_app x acc p q :
  partition_loop x acc (p ++ q) =
  partition_loop x acc p ≫= fun acc' => partition_loop x acc' q.
Proof.
  revert acc. induction p as [|c p IH]; intros acc; simpl; [done|].
  destruct (partition_step x acc c) as [acc1|]; simpl; [apply IH|done].
Qed.

Lemma partition_snoc x path edges_to_sketch c acc :
  _partition_contractions x path edges_to_sketch = Some acc ->
  _partition_contractions x (path ++ [c]) edges_to_sketch = partition_step x acc c.
Proof.
  unfold _partition_contractions. intros Hp.
  rewrite partition_loop_app, Hp. simpl.
  by destruct (partition_step x acc c).
Qed.

Lemma single_reduce_one_sole x c e : single_reduce x c e -> one_sole_carrier x c e.
Proof.
  intros (u & v & Hu & Hv & Hc). exists u, v. split_and!; [done..|].
  unfold sole_pending.
  destruct Hc as [[-> ->]|[-> ->]]; [left|right]; split; congruence.
Qed.

Lemma single_reduce_functional x c e e' :
  single_reduce x c e -> single_reduce x c e' -> e = e'.
Proof.
  intros (u & v & Hu & Hv & Hc) (u' & v' & Hu' & Hv' & Hc').
  rewrite Hu in Hu'. rewrite Hv in Hv'. simplify_eq.
  destruct Hc as [[Ha Hb]|[Ha Hb]], Hc' as [[Ha' Hb']|[Ha' Hb']]; congruence.
Qed.

(** The four outcomes of one round of the loop. *)
Lemma partition_step_cases x D (S_ : list Contraction) I_S c acc' :
  partition_step x (D, S_, I_S) c = Some acc' ->
  (acc' = (D, S_ ++ [c], I_S ++ [c]) /\ forall e, ~ single_reduce x c e) \/
  (exists e D', single_reduce x c e /\ dict_append D e c = Some D' /\
     acc' = (D', S_, I_S)) \/
  (acc' = (D, S_, I_S ++ [c]) /\ forall e, ~ single_reduce x c e).
Proof.
  unfold partition_step.
  destruct (node_at x c.1) as [u|] eqn:Hu; simpl; [|done].
  destruct (node_at x c.2) as [v|] eqn:Hv; simpl; [|done].
  assert (Hno : forall e, length (get_all_dangling u) ≠ 1%nat \/ get_all_dangling v ≠ [] ->
                   length (get_all_dangling v) ≠ 1%nat \/ get_all_dangling u ≠ [] ->
                   ~ single_reduce x c e).
  { intros e H1 H2 (u' & v' & Hu' & Hv' & Hc). simplify_eq.
    destruct Hc as [[Ha Hb]|[Ha Hb]]; rewrite Ha, Hb in *; simpl in *; naive_solver. }
  destruct (get_all_dangling u) as [|e1 [|e2 lu]] eqn:Edu;
    destruct (get_all_dangling v) as [|f1 [|f2 lv]] eqn:Edv; simpl;
    try (intros [= <-]; (left + (right; right)); split; [done|];
         intros e; apply Hno; simpl; (by left) || (by right)).
  - destruct (dict_append D f1 c) as [D'|] eqn:Ea; simpl; [|done].
    intros [= <-]. right; left. exists f1, D'. split_and!; [|done..].
    exists u, v. rewrite Edu, Edv. naive_solver.
  - destruct (dict_append D e1 c) as [D'|] eqn:Ea; simpl; [|done].
    intros [= <-]. right; left. exists e1, D'. split_and!; [|done..].
    exists u, v. rewrite Edu, Edv. naive_solver.
Qed.

Lemma partition_step_inv x processed acc c acc' :
  partition_inv x processed acc ->
  partition_step x acc c = Some acc' ->
  partition_inv x (processed ++ [c]) acc'.
Proof.
  destruct acc as [[D S_] I_S]. intros (HD & HI & HS & HP) Hstep.
  destruct (partition_step_cases _ _ _ _ _ _ Hstep)
    as [[-> Hn]|[(e & D' & Hsr & Happ & ->)|[-> Hn]]]; simpl.
  - split_and!; [done| | |].
    + intros c' [Hc'| ->%list_elem_of_singleton]%elem_of_app; auto.
    + by apply sublist_app.
    + rewrite HP. rewrite <- !(assoc_L (++)). apply Permutation_app_head.
      apply Permutation_app_comm.
  - split_and!; [|done..|].
    + intros e' l c'. rewrite (dict_append_get _ _ _ _ Happ e').
      case_decide as Hd.
      * subst e'. destruct (dict_get D e) as [l0|] eqn:E0; simpl; [|done].
        intros [= <-] [Hc'| ->%list_elem_of_singleton]%elem_of_app; eauto.
      * eauto.
    + rewrite (dict_append_concat _ _ _ _ Happ), HP.
      rewrite <- (assoc_L (++)). apply Permutation_app_head.
      symmetry. apply Permutation_cons_append.
  - split_and!; [done| | |].
    + intros c' [Hc'| ->%list_elem_of_singleton]%elem_of_app; auto.
    + by apply sublist_inserts_r.
    + rewrite HP. rewrite <- !(assoc_L (++)). apply Permutation_app_head.
      apply Permutation_app_comm.
Qed.

Lemma partition_loop_inv x processed acc path acc' :
  partition_inv x processed acc ->
  partition_loop x acc path = Some acc' ->
  partition_inv x (processed ++ path) acc'.
Proof.
  revert processed acc. induction path as [|c path IH]; intros processed acc Hinv; simpl.
  - intros [= <-]. by rewrite (right_id_L [] (++)).
  - destruct (partition_step x acc c) as [acc1|] eqn:Hs; simpl; [|done].
    intros Hl. rewrite (cons_middle c), (assoc_L (++)).
    eapply IH; [|done]. by eapply partition_step_inv.
Qed.

Lemma dict_from_keys_get (ks : list Edge) e (l : list Contraction) :
  dict_get (dict_from_keys ks []) e = Some l -> l = [].
Proof.
  unfold dict_from_keys.
  assert (G : forall (M : list (Edge * list Contraction)),
    (forall e l, dict_get M e = Some l -> l = []) ->
    forall e l, dict_get (foldl (fun M k => dict_set M k []) M ks) e = Some l -> l = []).
  { induction ks as [|k ks IH]; intros M HM e' l'; simpl; [apply HM|].
    apply IH. intros e2 l2. rewrite dict_set_get. case_decide; [congruence|apply HM]. }
  apply G. intros ? ? [=].
Qed.

Lemma dict_from_keys_concat (ks : list Edge) :
  concat (dict_from_keys ks ([] : list Contraction)).*2 = [].
Proof.
  assert (G : forall (M : list (Edge * list Contraction)),
    Forall (fun p => p.2 = []) M -> concat M.*2 = []).
  { induction 1 as [|[k l] M Hl _ IH]; csimpl in *; [done|]. by rewrite Hl, IH. }
  assert (G1 : forall (M : list (Edge * list Contraction)) k,
    Forall (fun p => p.2 = []) M -> Forall (fun p => p.2 = []) (dict_set M k [])).
  { induction 1 as [|[k0 l0] M Hl HM IH]; simpl.
    - by repeat constructor.
    - case_decide; constructor; done. }
  assert (G2 : forall (M : list (Edge * list Contraction)),
    Forall (fun p => p.2 = []) M ->
    Forall (fun p => p.2 = []) (foldl (fun M k => dict_set M k []) M ks)).
  { induction ks as [|k ks IH]; intros M HM; simpl; [done|]. apply IH, G1, HM. }
  apply G, G2. constructor.
Qed.

Lemma partition_contractions_inv x path edges_to_sketch acc :
  _partition_contractions x path edges_to_sketch = Some acc ->
  partition_inv x path acc.
Proof.
  intros Hp. change path with ([] ++ path).
  eapply partition_loop_inv; [|exact Hp].
  split_and!.
  - intros e l c ->%dict_from_keys_get []%elem_of_nil.
  - intros c []%elem_of_nil.
  - constructor.
  - by rewrite dict_from_keys_concat.
Qed.

End PartitionFacts.

Section PartitionTheorems.
Context {Edge TN : Type} `{EqDecision Edge} `{!TensorNetwork Edge TN}.

Implicit Types (x : TN) (e : Edge) (c : Contraction).
Implicit Types (D : list (Edge * list Contraction)) (I_S : list Contraction).

Lemma partition_step_keys x D (S_ : list Contraction) I_S c D' S' I_S' :
  partition_step x (D, S_, I_S) c = Some (D', S', I_S') -> D'.*1 = D.*1.
Proof.
  intros Hstep.
  destruct (partition_step_cases _ _ _ _ _ _ Hstep)
    as [[[= -> -> ->] _]|[(e & D1 & _ & Happ & [= -> -> ->])|[[= -> -> ->] _]]]; [done| |done].
  by eapply dict_append_keys.
Qed.

Lemma partition_loop_keys x acc path acc' :
  partition_loop x acc path = Some acc' -> acc'.1.1.*1 = acc.1.1.*1.
Proof.
  revert acc. induction path as [|c path IH]; intros acc; simpl.
  - by intros [= ->].
  - destruct (partition_step x acc c) as [acc1|] eqn:Hs; simpl; [|done].
    intros Hl. rewrite (IH _ Hl).
    destruct acc as [[D S_] I_S], acc1 as [[D1 S1] I1]. simpl.
    by eapply partition_step_keys.
Qed.

(** The buckets of [D] are the edges to sketch, each once. *)
Lemma partition_buckets x path edges_to_sketch D (S_ : list Contraction) I_S :
  _partition_contractions x path edges_to_sketch = Some (D, S_, I_S) ->
  NoDup D.*1 /\ forall e, e ∈ D.*1 <-> e ∈ edges_to_sketch.
Proof.
  intros Hp. apply partition_loop_keys in Hp. simpl in Hp. rewrite Hp.
  apply dict_from_keys_keys.
Qed.

Lemma dict_get_of_elem {V : Type} (M : list (Edge * V)) e v :
  NoDup M.*1 -> (e, v) ∈ M -> dict_get M e = Some v.
Proof.
  induction M as [|[k0 v0] M IH]; csimpl; intros Hnd Hin.
  - by apply elem_of_nil in Hin.
  - apply NoDup_cons in Hnd as [Hk Hnd].
    apply elem_of_cons in Hin as [[= <- <-]|Hin].
    + by rewrite decide_True.
    + rewrite decide_False; [by apply IH|].
      intros ->. apply Hk. apply list_elem_of_fmap. by exists (e, v).
Qed.

(** C6. For an entry [c = (u, v)] that follows the entries of [path], with
    [d_u] and [d_v] the numbers of dangling dimensions to sketch of [u] and
    [v]: when both are positive [c] is appended to [S] and to [I_S];
    otherwise, when [d_u = 1], to the bucket of [u]'s dangling edge;
    otherwise, when [d_v = 1], to the bucket of [v]'s dangling edge; otherwise
    to [I_S] only.  Nothing else changes. *)
Theorem partition_rule_in_branch_order
    x path edges_to_sketch c D (S_ : list Contraction) I_S u_i v_i :
  _partition_contractions x path edges_to_sketch = Some (D, S_, I_S) ->
  node_at x c.1 = Some u_i ->
  node_at x c.2 = Some v_i ->
  let d_u := length (get_all_dangling u_i) in
  let d_v := length (get_all_dangling v_i) in
  let both := (0 < d_u)%nat /\ (0 < d_v)%nat in
  let result := _partition_contractions x (path ++ [c]) edges_to_sketch in
  (both -> result = Some (D, S_ ++ [c], I_S ++ [c])) /\
  (~ both -> d_u = 1%nat ->
     forall e, get_all_dangling u_i = [e] ->
     result = dict_append D e c ≫= fun D' => Some (D', S_, I_S)) /\
  (~ both -> d_u <> 1%nat -> d_v = 1%nat ->
     forall e, get_all_dangling v_i = [e] ->
     result = dict_append D e c ≫= fun D' => Some (D', S_, I_S)) /\
  (~ both -> d_u <> 1%nat -> d_v <> 1%nat ->
     result = Some (D, S_, I_S ++ [c])).
Proof.
  intros Hp Hu Hv d_u d_v both result.
  assert (Hr : result = partition_step x (D, S_, I_S) c)
    by (by apply partition_snoc).
  rewrite Hr. unfold partition_step. rewrite Hu, Hv. simpl.
  subst d_u d_v both. clear Hr result Hp.
  destruct (get_all_dangling u_i) as [|e1 [|e2 lu]];
    destruct (get_all_dangling v_i) as [|f1 [|f2 lv]]; simpl;
    (split_and!; [intros [? ?]|intros Hb ? e [=]|intros Hb ? ? e [=]|intros Hb ? ?]);
    subst; try done; try lia; exfalso; apply Hb; lia.
Qed.

(** C7. In the partition of a path, every contraction of a bucket [D[e]] has
    exactly one operand that carries [e] as its only pending sketch
    dimension; every entry of [S] is in [I_S]; every entry of the path is in
    [I_S] and in no bucket, or in one bucket and neither in another bucket
    nor in [I_S]; and the path is, up to order, [I_S] followed by the
    buckets. *)
Theorem partition_sound x path edges_to_sketch D (S_ : list Contraction) I_S :
  _partition_contractions x path edges_to_sketch = Some (D, S_, I_S) ->
  (forall e l c, dict_get D e = Some l -> c ∈ l -> one_sole_carrier x c e) /\
  S_ ⊆ I_S /\
  (forall c, c ∈ path ->
     (c ∈ I_S /\ forall e l, dict_get D e = Some l -> c ∉ l) \/
     ((c ∉ I_S) /\ exists e l, dict_get D e = Some l /\ c ∈ l /\
        forall e' l', dict_get D e' = Some l' -> c ∈ l' -> e' = e)) /\
  path ≡ₚ I_S ++ concat D.*2.
Proof.
  intros Hp.
  destruct (partition_buckets _ _ _ _ _ _ Hp) as [Hnd _].
  apply partition_contractions_inv in Hp as (HD & HI & HS & HP).
  split_and!; [|by apply sublist_subseteq| |done].
  - intros e l c Hl Hc. eapply single_reduce_one_sole, HD; done.
  - intros c Hc. rewrite HP in Hc. apply elem_of_app in Hc as [Hc|Hc].
    + left. split; [done|]. intros e l Hl Hcl. eapply HI; eauto.
    + right. apply list_elem_of_In, in_concat in Hc as (l & Hl & Hcl).
      apply list_elem_of_In in Hl, Hcl.
      apply list_elem_of_fmap in Hl as ([e l'] & -> & Hin). simpl in Hcl.
      apply dict_get_of_elem in Hin; [|done].
      split.
      * intros Hci. eapply HI; eauto.
      * exists e, l'. split_and!; [done..|].
        intros e' l2 Hl2 Hc2. eapply single_reduce_functional; eauto.
Qed.

End PartitionTheorems.

(** ** Permutations, the least element and its first index *)

Section SearchFacts.

Lemma picks_perm {A : Type} (l : list A) a r : (a, r) ∈ picks l -> l ≡ₚ a :: r.
Proof.
  revert a r. induction l as [|b l IH]; intros a r; simpl.
  - intros []%elem_of_nil.
  - intros [[= -> ->]|Hin]%elem_of_cons; [done|].
    apply list_elem_of_fmap in Hin as ([a' r'] & [= -> ->] & Hin). simpl.
    rewrite (IH _ _ Hin). apply perm_swap.
Qed.

Lemma picks_elem {A : Type} (l : list A) a : a ∈ l -> exists r, (a, r) ∈ picks l.
Proof.
  induction l as [|b l IH]; simpl.
  - intros []%elem_of_nil.
  - intros [->|Hin]%elem_of_cons.
    + eexists. left.
    + destruct (IH Hin) as [r Hr]. exists (b :: r). right.
      apply list_elem_of_fmap. by exists (a, r).
Qed.

Lemma permutations_upto_elem {A : Type} (n : nat) (l p : list A) :
  length l = n -> p ∈ permutations_upto n l <-> p ≡ₚ l.
Proof.
  revert l p. induction n as [|n IH]; intros l p Hlen.
  - destruct l; [|done]. simpl. rewrite list_elem_of_singleton. split.
    + by intros ->.
    + intros Hp. by apply Permutation_nil_r in Hp.
  - destruct l as [|a0 l]; [done|].
    change (permutations_upto (S n) (a0 :: l))
      with (flat_map (fun q => map (cons q.1) (permutations_upto n q.2)) (picks (a0 :: l))).
    rewrite list_elem_of_In, in_flat_map. split.
    + intros ([a r] & Hin & Hp). apply list_elem_of_In in Hin.
      apply in_map_iff in Hp as (p' & <- & Hp'). apply list_elem_of_In in Hp'.
      pose proof (picks_perm _ _ _ Hin) as Hl. simpl in *.
      apply IH in Hp'.
      * by rewrite Hl, Hp'.
      * apply Permutation_length in Hl. simpl in *. lia.
    + intros Hp. destruct p as [|b p'].
      { symmetry in Hp. by apply Permutation_nil_r in Hp. }
      assert (Hb : b ∈ a0 :: l) by (rewrite <- Hp; left).
      destruct (picks_elem _ _ Hb) as [r Hr].
      pose proof (picks_perm _ _ _ Hr) as Hl.
      exists (b, r). split; [by apply list_elem_of_In|].
      apply in_map_iff. exists p'. split; [done|]. apply list_elem_of_In. simpl.
      apply IH.
      * apply Permutation_length in Hl. simpl in *. lia.
      * rewrite Hl in Hp. by apply Permutation_cons_inv in Hp.
Qed.

(** [itertools.permutations] lists the permutations of its argument, and
    nothing else. *)
Lemma permutations_elem {A : Type} (l p : list A) : p ∈ permutations l <-> p ≡ₚ l.
Proof. by apply permutations_upto_elem. Qed.

Lemma argmin_loop_spec (pre l : list Z) (best : Z) (best_i : nat) :
  pre !! best_i = Some best ->
  (forall j b, pre !! j = Some b -> best <= b /\ ((j < best_i)%nat -> best < b)) ->
  exists a, (pre ++ l) !! argmin_loop l (length pre) best best_i = Some a /\
    forall j b, (pre ++ l) !! j = Some b ->
      a <= b /\ ((j < argmin_loop l (length pre) best best_i)%nat -> a < b).
Proof.
  revert pre best best_i. induction l as [|a l IH]; intros pre best best_i Hb Hall; simpl.
  - rewrite (right_id_L [] (++)). eauto.
  - assert (Hlen : length (pre ++ [a]) = S (length pre))
      by (rewrite length_app; simpl; lia).
    rewrite (cons_middle a pre l), (assoc_L (++)).
    destruct (Z.ltb_spec a best) as [Hlt|Hge]; rewrite <- Hlen; apply IH.
    + rewrite lookup_app_r by lia. by rewrite Nat.sub_diag.
    + intros j b Hj. apply lookup_app_Some in Hj as [Hj|[Hj1 Hj2]].
      * destruct (Hall _ _ Hj). split; [lia|]. intros _. lia.
      * apply list_lookup_singleton_Some in Hj2 as [? ->]. split; lia.
    + rewrite lookup_app_l; [done|]. by eapply lookup_lt_Some.
    + intros j b Hj. apply lookup_app_Some in Hj as [Hj|[Hj1 Hj2]].
      * by apply Hall.
      * apply list_lookup_singleton_Some in Hj2 as [? ->]. split; [lia|].
        apply lookup_lt_Some in Hb. lia.
Qed.

Lemma to_binary64_opp (z : Z) : to_binary64 (- z) = - to_binary64 z.
Proof.
  unfold to_binary64. rewrite Z.abs_opp, Z.sgn_opp.
  destruct (Z.log2 (Z.abs z) - 52 <=? 0); lia.
Qed.

Lemma to_binary64_large (z : Z) : 2 ^ 53 <= z -> 2 ^ 53 <= to_binary64 z.
Proof.
  intros Hz. unfold to_binary64.
  assert (H0 : 0 < z) by lia.
  rewrite (Z.abs_eq z), (Z.sgn_pos z) by lia.
  assert (Hlog : 53 <= Z.log2 z) by (apply Z.log2_le_pow2; lia).
  destruct (Z.log2_spec z H0) as [Hlo _].
  set (e := Z.log2 z - 52) in *.
  destruct (Z.leb_spec e 0) as [|He]; [lia|].
  assert (Hpow : 2 ^ Z.log2 z = 2 ^ 52 * 2 ^ e).
  { rewrite <- Z.pow_add_r by lia. f_equal. lia. }
  assert (He2 : 2 <= 2 ^ e).
  { change 2 with (2 ^ 1) at 1. apply Z.pow_le_mono_r; lia. }
  assert (Hq : 2 ^ 52 <= z / 2 ^ e) by (apply Z.div_le_lower_bound; lia).
  destruct ((2 ^ (e - 1) <? z mod 2 ^ e) || ((z mod 2 ^ e =? 2 ^ (e - 1)) && Z.odd (z / 2 ^ e)));
    nia.
Qed.

(** binary64 holds every integer up to [2 ^ 53] in magnitude. *)
Lemma to_binary64_exact (z : Z) : binary64_exact z -> to_binary64 z = z.
Proof.
  intros [Hlo Hhi]. unfold to_binary64.
  destruct (Z.leb_spec (Z.log2 (Z.abs z) - 52) 0) as [|He]; [done|].
  assert (Habs : 2 ^ 53 <= Z.abs z).
  { destruct (Z.le_gt_cases (2 ^ 53) (Z.abs z)) as [|Hlt]; [done|].
    destruct (Z.eq_dec (Z.abs z) 0) as [H0|H0]; [rewrite H0 in He; simpl in He; lia|].
    apply Z.log2_lt_pow2 in Hlt; lia. }
  assert (Hz : z = 2 ^ 53 \/ z = - 2 ^ 53) by lia.
  destruct Hz as [-> | ->]; reflexivity.
Qed.

(** Against the float [1.0], binary64 orders the integers as they are. *)
Lemma to_binary64_one (z : Z) :
  (to_binary64 z <? 1) = (z <? 1) /\ (1 <? to_binary64 z) = (1 <? z).
Proof.
  destruct (Z.le_gt_cases (2 ^ 53) z) as [Hbig|Hlt].
  { pose proof (to_binary64_large z Hbig). split; [transitivity false|transitivity true];
      first [apply Z.ltb_ge | symmetry; apply Z.ltb_ge | apply Z.ltb_lt | symmetry; apply Z.ltb_lt];
      lia. }
  destruct (Z.le_gt_cases z (- 2 ^ 53)) as [Hsmall|Hgt].
  { pose proof (to_binary64_large (- z) ltac:(lia)) as Hl. rewrite to_binary64_opp in Hl.
    split; [transitivity true|transitivity false];
      first [apply Z.ltb_ge | symmetry; apply Z.ltb_ge | apply Z.ltb_lt | symmetry; apply Z.ltb_lt];
      lia. }
  rewrite to_binary64_exact; [done|]. unfold binary64_exact. lia.
Qed.

(** The only float of the simulation is the [1.0] of an empty product. *)
Lemma np_prod_float (l : list Z) : is_float64 (np_prod l) -> value (np_prod l) = 1.
Proof. by destruct l. Qed.

(** So the comparisons of the simulation are those of the integers. *)
Lemma number_ltb_exact (a b : Number) :
  (is_float64 a -> value a = 1) -> (is_float64 b -> value b = 1) ->
  number_ltb a b = (value a <? value b).
Proof.
  unfold number_ltb.
  destruct a as [n|n], b as [m|m]; simpl; intros Ha Hb; [done|..].
  - rewrite (Hb I). apply to_binary64_one.
  - rewrite (Ha I). apply to_binary64_one.
  - by rewrite (Ha I), (Hb I).
Qed.

Lemma np_array_length (l : list Number) : length (np_array l) = length l.
Proof. unfold np_array. destruct (existsb is_float64 l); by rewrite length_map. Qed.

(** When binary64 holds every element as it is, the array holds the
    integers of the list. *)
Lemma np_array_exact (l : list Number) :
  Forall (fun a => binary64_exact (value a)) l -> np_array l = map value l.
Proof.
  intros Hall. unfold np_array. destruct (existsb is_float64 l); [|done].
  induction Hall as [|a l Ha _ IH]; simpl; [done|]. by rewrite IH, to_binary64_exact.
Qed.

(** [np.argmin] returns the first index of the least element of the
    array. *)
Lemma np_argmin_spec (l : list Number) (k : nat) :
  np_argmin l = Some k ->
  exists a, np_array l !! k = Some a /\
    forall j b, np_array l !! j = Some b -> a <= b /\ ((j < k)%nat -> a < b).
Proof.
  unfold np_argmin. destruct (np_array l) as [|a0 l']; [done|]. intros [= <-].
  apply (argmin_loop_spec [a0] l' a0 0); [done|].
  intros j b Hj. apply list_lookup_singleton_Some in Hj as [-> ->]. split; lia.
Qed.

Lemma np_argmin_is_Some (l : list Number) : l <> [] -> is_Some (np_argmin l).
Proof.
  intros Hne. unfold np_argmin. pose proof (np_array_length l) as Hlen.
  destruct (np_array l); [|by eauto]. by destruct l.
Qed.

Lemma foldr_min_le (m : Z) (l : list Z) :
  foldr Z.min m l <= m /\ forall s, s ∈ l -> foldr Z.min m l <= s.
Proof.
  induction l as [|a l [IH1 IH2]]; simpl.
  - split; [lia|]. intros s []%elem_of_nil.
  - split; [lia|]. intros s [->|Hs]%elem_of_cons; [lia|]. specialize (IH2 _ Hs). lia.
Qed.

Lemma foldr_min_elem (m : Z) (l : list Z) : foldr Z.min m l ∈ m :: l.
Proof.
  induction l as [|a l IH]; simpl; [left|].
  destruct (Z.min_spec a (foldr Z.min m l)) as [[_ ->]|[_ ->]].
  - right; left.
  - apply elem_of_cons in IH as [->|IH]; [left|by do 2 right].
Qed.

Lemma foldr_min_swap (a b : Z) (l : list Z) :
  Z.min a (foldr Z.min b l) = Z.min b (foldr Z.min a l).
Proof. induction l as [|s l IH]; simpl; lia. Qed.

(** The step [first_min_step] returns is where the trajectory first reaches
    its least size. *)
Lemma first_min_step_spec (pre sizes : list Z) (least step : Z) :
  -1 <= step < Z.of_nat (length pre) - 1 ->
  pre !! Z.to_nat (step + 1) = Some least ->
  (forall j b, pre !! j = Some b -> least <= b /\ ((j < Z.to_nat (step + 1))%nat -> least < b)) ->
  let k := first_min_step sizes (Z.of_nat (length pre) - 1) least step in
  -1 <= k < Z.of_nat (length (pre ++ sizes)) - 1 /\
  (pre ++ sizes) !! Z.to_nat (k + 1) = Some (foldr Z.min least sizes) /\
  forall j b, (pre ++ sizes) !! j = Some b ->
    foldr Z.min least sizes <= b /\ ((j < Z.to_nat (k + 1))%nat -> foldr Z.min least sizes < b).
Proof.
  revert pre least step. induction sizes as [|s sizes IH]; intros pre least step Hst Hl Hall; simpl.
  - rewrite (right_id_L [] (++)). done.
  - assert (Hlen : Z.of_nat (length (pre ++ [s])) - 1 = Z.of_nat (length pre) - 1 + 1)
      by (rewrite length_app; simpl; lia).
    rewrite (cons_middle s pre sizes), (assoc_L (++)). rewrite <- Hlen.
    destruct (Z.ltb_spec s least) as [Hlt|Hge].
    + replace (Z.min s (foldr Z.min least sizes)) with (foldr Z.min s sizes).
      2:{ pose proof (foldr_min_swap s least sizes).
          pose proof (foldr_min_le s sizes) as [? _].
          pose proof (foldr_min_le least sizes) as [? _]. lia. }
      apply IH.
      * rewrite length_app; simpl; lia.
      * replace (Z.to_nat (Z.of_nat (length pre) - 1 + 1)) with (length pre) by lia.
        rewrite lookup_app_r by lia. by rewrite Nat.sub_diag.
      * replace (Z.to_nat (Z.of_nat (length pre) - 1 + 1)) with (length pre) by lia.
        intros j b Hj. apply lookup_app_Some in Hj as [Hj|[Hj1 Hj2]].
        -- destruct (Hall _ _ Hj). split; [lia|]. intros _. lia.
        -- apply list_lookup_singleton_Some in Hj2 as [? ->]. split; lia.
    + replace (Z.min s (foldr Z.min least sizes)) with (foldr Z.min least sizes).
      2:{ pose proof (foldr_min_le least sizes) as [? _]. lia. }
      apply IH.
      * rewrite length_app; simpl; lia.
      * rewrite lookup_app_l; [done|]. by eapply lookup_lt_Some.
      * intros j b Hj. apply lookup_app_Some in Hj as [Hj|[Hj1 Hj2]].
        -- by apply Hall.
        -- apply list_lookup_singleton_Some in Hj2 as [? ->]. split; [lia|].
           apply lookup_lt_Some in Hl. lia.
Qed.

End SearchFacts.

(** ** The Kronecker scheduler *)

Section SchedulerFacts.
Context {Edge TN : Type} `{EqDecision Edge} `{!TensorNetwork Edge TN}.

Implicit Types (x : TN) (e : Edge) (c : Contraction) (U V : Node Edge).

Lemma dict_get_is_Some {V : Type} (M : list (Edge * V)) e :
  e ∈ M.*1 -> is_Some (dict_get M e).
Proof.
  induction M as [|[k v] M IH]; csimpl.
  - intros []%elem_of_nil.
  - intros Hin. case_decide; [eauto|].
    apply elem_of_cons in Hin as [->|Hin]; [done|auto].
Qed.

Lemma build_U_edges_is_Some (es : list Edge) (shape : list Z) (i : nat) acc :
  (length es + i <= length shape)%nat ->
  exists U_edges, build_U_edges es shape i acc = Some U_edges /\
    forall e, e ∈ es \/ e ∈ acc.*1 -> is_Some (dict_get U_edges e).
Proof.
  revert i acc. induction es as [|e0 es IH]; intros i acc Hlen; simpl in *.
  - exists acc. split; [done|]. intros e [[]%elem_of_nil|He]. by apply dict_get_is_Some.
  - destruct (lookup_lt_is_Some_2 shape i) as [d Hd]; [lia|]. rewrite Hd. simpl.
    destruct (IH (S i) (dict_set acc e0 d)) as (UE & HUE & Hget); [lia|].
    exists UE. split; [done|]. intros e He. apply Hget.
    rewrite dict_set_keys. case_decide as Hin.
    + destruct He as [[->|He]%elem_of_cons|He]; auto.
    + rewrite elem_of_app, list_elem_of_singleton.
      destruct He as [[->|He]%elem_of_cons|He]; auto.
Qed.

Lemma contracted_indices_is_Some (U_edges : list (Edge * Z)) U V :
  (forall e, e ∈ edges U -> is_Some (dict_get U_edges e)) ->
  is_Some (contracted_indices U_edges U V).
Proof.
  intros Hget. unfold contracted_indices. apply mapM_is_Some, Forall_forall.
  intros e [_ He]%list_elem_of_filter. by apply Hget.
Qed.

Lemma tracked_shapes_is_Some (U_edges : list (Edge * Z)) U nodes shape :
  (forall e, e ∈ edges U -> is_Some (dict_get U_edges e)) ->
  is_Some (tracked_shapes U_edges U nodes shape).
Proof.
  intros Hget. revert shape. induction nodes as [|V nodes IH]; intros shape; simpl; [eauto|].
  destruct (contracted_indices_is_Some U_edges U V Hget) as [ci ->]. simpl.
  apply fmap_is_Some, IH.
Qed.

(** The loop of [_contraction_path_minimize_U] keeps the least of the sizes
    it goes through, and the first step that reaches it. *)
Lemma minimize_loop_tracked (U_edges : list (Edge * Z)) U nodes i shape (m : Number) idx :
  (is_float64 m -> value m = 1) ->
  match tracked_shapes U_edges U nodes shape with
  | Some shapes =>
      exists a,
        minimize_loop U_edges U nodes i shape m idx
          = Some (a, first_min_step (map shape_size shapes) i (value m) idx) /\
        value a = foldr Z.min (value m) (map shape_size shapes)
  | None => minimize_loop U_edges U nodes i shape m idx = None
  end.
Proof.
  revert i shape m idx. induction nodes as [|V nodes IH]; intros i shape m idx Hm; simpl.
  { by exists m. }
  destruct (contracted_indices U_edges U V) as [ci|]; simpl; [|done].
  cbn zeta. rewrite number_ltb_exact by (done || apply np_prod_float).
  fold (shape_size (new_shape ci shape V)).
  destruct (shape_size (new_shape ci shape V) <? value m) eqn:Hcmp.
  - specialize (IH (i + 1) (new_shape ci shape V) (np_prod (new_shape ci shape V)) i
                  (np_prod_float _)).
    fold (shape_size (new_shape ci shape V)) in IH.
    destruct (tracked_shapes U_edges U nodes (new_shape ci shape V)) as [shapes|];
      simpl; [|done].
    destruct IH as (a & -> & Ha). exists a. rewrite Hcmp. split; [done|].
    rewrite Ha. apply Z.ltb_lt in Hcmp.
    pose proof (foldr_min_swap (shape_size (new_shape ci shape V)) (value m)
                  (map shape_size shapes)).
    pose proof (foldr_min_le (shape_size (new_shape ci shape V)) (map shape_size shapes))
      as [? _].
    pose proof (foldr_min_le (value m) (map shape_size shapes)) as [? _]. lia.
  - specialize (IH (i + 1) (new_shape ci shape V) m idx Hm).
    destruct (tracked_shapes U_edges U nodes (new_shape ci shape V)) as [shapes|];
      simpl; [|done].
    destruct IH as (a & -> & Ha). exists a. rewrite Hcmp. split; [done|].
    rewrite Ha. apply Z.ltb_ge in Hcmp.
    pose proof (foldr_min_le (value m) (map shape_size shapes)) as [? _]. lia.
Qed.

(** The cost of a permutation is the least size of its simulated run and
    the first step that reaches it. *)
Lemma permutation_cost_simulated x U (p : list Z) :
  match simulated_sizes x U p with
  | Some sizes =>
      exists a,
        permutation_cost x U p = Some (a, first_min_step sizes 0 (tensor_size U) (-1)) /\
        value a = min_achieved U sizes
  | None => permutation_cost x U p = None
  end.
Proof.
  unfold permutation_cost, simulated_sizes, _contraction_path_minimize_U, min_achieved.
  destruct (mapM (node_at x) p) as [nodes|]; simpl; [|done].
  destruct (build_U_edges (edges U) (tensor_shape U) 0 []) as [UE|]; simpl; [|done].
  pose proof (minimize_loop_tracked UE U nodes 0 (tensor_shape U) (Int (tensor_size U)) (-1))
    as Hloop.
  destruct (tracked_shapes UE U nodes (tensor_shape U)); simpl; apply Hloop; done.
Qed.

Lemma simulated_sizes_is_Some x U (p : list Z) :
  (length (edges U) <= length (tensor_shape U))%nat ->
  Forall (fun j => is_Some (node_at x j)) p ->
  is_Some (simulated_sizes x U p).
Proof.
  intros Hlen Hp. unfold simulated_sizes.
  destruct (mapM_is_Some_2 (node_at x) p) as [nodes ->]; [done|]. simpl.
  destruct (build_U_edges_is_Some (edges U) (tensor_shape U) 0 []) as (UE & -> & Hget); [lia|].
  simpl.
  destruct (tracked_shapes_is_Some UE U nodes (tensor_shape U)) as [shapes ->]; [|by eauto].
  intros e He. apply Hget. by left.
Qed.

(** Where the least size of a run is first reached. *)
Lemma first_min_position U (sizes : list Z) :
  let k := Z.to_nat (first_min_step sizes 0 (tensor_size U) (-1) + 1) in
  (tensor_size U :: sizes) !! k = Some (min_achieved U sizes) /\
  forall j s, (tensor_size U :: sizes) !! j = Some s -> (j < k)%nat -> min_achieved U sizes < s.
Proof.
  destruct (first_min_step_spec [tensor_size U] sizes (tensor_size U) (-1))
    as (Hk & Hat & Hall); simpl; [lia|done| |].
  - intros j b Hj. apply list_lookup_singleton_Some in Hj as [-> ->]. split; lia.
  - simpl in *. split; [done|]. intros j s Hj Hlt. by apply (Hall j s).
Qed.

End SchedulerFacts.

Section PlanFacts.
Context {Edge TN : Type} `{EqDecision Edge} `{!TensorNetwork Edge TN}.

Implicit Types (x : TN) (e : Edge) (c : Contraction) (U V : Node Edge).

(** The costs [_calculate_contraction_path_shapes] computes, one for each
    permutation of the partners, the index [np.argmin] chooses among them,
    and the plan: the order at that index, with the sketch marker after the
    step that first reaches its least size. *)
Lemma calculate_plan_costs x (D_e_i : list Contraction) (i : Z) plan :
  _calculate_contraction_path_shapes x D_e_i i = Some plan ->
  exists u (costs : list (Number * Z)) (k : nat) chosen sizes,
    node_at x i = Some u /\
    Forall2 (fun p cost => exists sizes_p,
               simulated_sizes x u p = Some sizes_p /\
               value cost.1 = min_achieved u sizes_p)
      (permutations (j_nodes D_e_i i)) costs /\
    np_argmin costs.*1 = Some k /\
    permutations (j_nodes D_e_i i) !! k = Some chosen /\
    simulated_sizes x u chosen = Some sizes /\
    plan = pair i <$>
      list_insert_at (Z.to_nat (first_min_step sizes 0 (tensor_size u) (-1) + 1))
        None (Some <$> chosen).
Proof.
  unfold _calculate_contraction_path_shapes.
  destruct (node_at x i) as [u|] eqn:Hu; simpl; [|done].
  destruct (mapM (permutation_cost x u) (permutations (j_nodes D_e_i i)))
    as [costs|] eqn:Hcosts; simpl; [|done].
  apply mapM_Some in Hcosts.
  destruct (np_argmin costs.*1) as [k|] eqn:Hk; simpl; [|done].
  destruct (costs.*2 !! k) as [sidx|] eqn:Hsidx; simpl; [|done].
  destruct (permutations (j_nodes D_e_i i) !! k) as [chosen|] eqn:Hchosen; simpl; [|done].
  intros [= <-].
  rewrite list_lookup_fmap in Hsidx.
  destruct (costs !! k) as [[a' sidx']|] eqn:Hck; simpl in *; [|done].
  injection Hsidx as ->.
  pose proof (Forall2_lookup_lr _ _ _ _ _ _ Hcosts Hchosen Hck) as Hcost.
  cbv beta in Hcost. pose proof (permutation_cost_simulated x u chosen) as Hsim.
  destruct (simulated_sizes x u chosen) as [sizes|] eqn:Hsizes; [|congruence].
  destruct Hsim as (a & Hsim & Ha). rewrite Hsim in Hcost. injection Hcost as <- <-.
  exists u, costs, k, chosen, sizes. split_and!; [done| |done..].
  eapply Forall2_impl; [exact Hcosts|]. intros p [b sb] Hp. cbv beta in Hp.
  pose proof (permutation_cost_simulated x u p) as Hsp.
  destruct (simulated_sizes x u p) as [sizes_p|]; [|congruence].
  destruct Hsp as (b' & Hsp & Hb'). rewrite Hsp in Hp. injection Hp as <- <-.
  by exists sizes_p.
Qed.

(** The plan is for a permutation of the partners, with the sketch marker
    after the step that first reaches the least size of that order. *)
Lemma calculate_plan_spec x (D_e_i : list Contraction) (i : Z) plan :
  _calculate_contraction_path_shapes x D_e_i i = Some plan ->
  exists u chosen sizes,
    node_at x i = Some u /\
    chosen ≡ₚ j_nodes D_e_i i /\
    simulated_sizes x u chosen = Some sizes /\
    plan = pair i <$>
      list_insert_at (Z.to_nat (first_min_step sizes 0 (tensor_size u) (-1) + 1))
        None (Some <$> chosen).
Proof.
  intros Hplan.
  destruct (calculate_plan_costs _ _ _ _ Hplan)
    as (u & costs & k & chosen & sizes & Hu & _ & _ & Hk & Hsizes & ->).
  exists u, chosen, sizes. split_and!; [done| |done..].
  apply permutations_elem. by eapply list_elem_of_lookup_2.
Qed.

(** When binary64 holds the least size of every order as it is, the order
    of the plan is the first, among the permutations as
    [itertools.permutations] lists them, whose least size is least. *)
Lemma calculate_plan_exact x (D_e_i : list Contraction) (i : Z) plan u :
  _calculate_contraction_path_shapes x D_e_i i = Some plan ->
  node_at x i = Some u ->
  least_sizes_exact x u (j_nodes D_e_i i) ->
  exists (k : nat) chosen sizes,
    permutations (j_nodes D_e_i i) !! k = Some chosen /\
    simulated_sizes x u chosen = Some sizes /\
    (forall j p, permutations (j_nodes D_e_i i) !! j = Some p ->
       exists sizes_p, simulated_sizes x u p = Some sizes_p /\
         min_achieved u sizes <= min_achieved u sizes_p /\
         ((j < k)%nat -> min_achieved u sizes < min_achieved u sizes_p)) /\
    plan = pair i <$>
      list_insert_at (Z.to_nat (first_min_step sizes 0 (tensor_size u) (-1) + 1))
        None (Some <$> chosen).
Proof.
  intros Hplan Hu Hexact.
  destruct (calculate_plan_costs _ _ _ _ Hplan)
    as (u' & costs & k & chosen & sizes & Hu' & Hcosts & Hargmin & Hk & Hsizes & ->).
  rewrite Hu in Hu'. injection Hu' as <-.
  exists k, chosen, sizes. split_and!; [done..| |done].
  assert (Harr : np_array costs.*1 = map value costs.*1).
  { apply np_array_exact, Forall_fmap, Forall_forall. intros cost Hin.
    apply list_elem_of_lookup_1 in Hin as [j Hj].
    destruct (Forall2_lookup_r _ _ _ _ _ Hcosts Hj) as (p & Hp & sizes_p & Hsp & Hval).
    simpl. rewrite Hval. apply (Hexact p sizes_p); [|done].
    apply permutations_elem. by eapply list_elem_of_lookup_2. }
  apply np_argmin_spec in Hargmin as (a & Ha & Hleast). rewrite Harr in Ha, Hleast.
  assert (Hval : forall j p, permutations (j_nodes D_e_i i) !! j = Some p ->
    exists sizes_p, simulated_sizes x u p = Some sizes_p /\
      map value costs.*1 !! j = Some (min_achieved u sizes_p)).
  { intros j p Hj.
    destruct (Forall2_lookup_l _ _ _ _ _ Hcosts Hj) as (cost & Hcj & sizes_p & Hsp & Hv).
    exists sizes_p. split; [done|].
    change (map value costs.*1) with (value <$> costs.*1).
    by rewrite !list_lookup_fmap, Hcj; simpl; rewrite Hv. }
  destruct (Hval _ _ Hk) as (sizes' & Hs' & Hat).
  rewrite Hsizes in Hs'. injection Hs' as <-.
  rewrite Hat in Ha. injection Ha as <-.
  intros j p Hj. destruct (Hval _ _ Hj) as (sizes_p & Hsp & Hatp).
  exists sizes_p. split; [done|]. by apply (Hleast j).
Qed.

(** The plan exists as soon as the anchor and its partners are nodes of the
    network and the anchor has a dimension for each of its edges. *)
Lemma calculate_plan_total x (D_e_i : list Contraction) (i : Z) u :
  node_at x i = Some u ->
  (length (edges u) <= length (tensor_shape u))%nat ->
  Forall (fun j => is_Some (node_at x j)) (j_nodes D_e_i i) ->
  is_Some (_calculate_contraction_path_shapes x D_e_i i).
Proof.
  intros Hu Hlen Hnodes. unfold _calculate_contraction_path_shapes.
  rewrite Hu. simpl.
  destruct (mapM_is_Some_2 (permutation_cost x u) (permutations (j_nodes D_e_i i)))
    as [costs Hcosts].
  { apply Forall_forall. intros p Hp%permutations_elem. simpl.
    pose proof (permutation_cost_simulated x u p) as Hsim.
    destruct (simulated_sizes_is_Some x u p) as [sizes Hs]; [done|by rewrite Hp|].
    rewrite Hs in Hsim. destruct Hsim as (a & -> & _). by eauto. }
  rewrite Hcosts. simpl. apply mapM_Some, Forall2_length in Hcosts.
  assert (Hne : costs.*1 <> []).
  { intros Hnil. apply (f_equal length) in Hnil. rewrite length_fmap in Hnil.
    assert (Hin : j_nodes D_e_i i ∈ permutations (j_nodes D_e_i i))
      by by apply permutations_elem.
    apply list_elem_of_lookup_1 in Hin as [j Hj]. apply lookup_lt_Some in Hj.
    simpl in *. lia. }
  destruct (np_argmin_is_Some _ Hne) as [k Hk]. rewrite Hk. simpl.
  apply np_argmin_spec in Hk as (a & Ha & _).
  apply lookup_lt_Some in Ha. rewrite np_array_length, length_fmap in Ha.
  destruct (lookup_lt_is_Some_2 costs.*2 k) as [sidx ->]; [by rewrite length_fmap|].
  destruct (lookup_lt_is_Some_2 (permutations (j_nodes D_e_i i)) k) as [ch ->]; [lia|].
  simpl. eauto.
Qed.

Lemma least_sizes_exact_check x U (partners : list Z) :
  least_sizes_exactb x U partners = true -> least_sizes_exact x U partners.
Proof.
  unfold least_sizes_exactb. rewrite forallb_forall.
  intros Hall p sizes_p Hp Hs.
  apply permutations_elem, list_elem_of_In, Hall in Hp. rewrite Hs in Hp.
  apply andb_prop in Hp as [?%Z.leb_le ?%Z.leb_le]. by split.
Qed.

(** The entries of a plan: the partners of the chosen order, each paired
    with the anchor, and one sketch marker. *)
Lemma plan_entries (i : Z) (k : nat) (chosen : list Z) :
  let plan := pair i <$> list_insert_at k None (Some <$> chosen) in
  plan_partners plan = chosen /\
  filter (fun p => p.2 = None) plan = [(i, None)] /\
  Forall (fun p => p.1 = i) plan /\
  length plan = S (length chosen).
Proof.
  simpl. unfold list_insert_at, plan_partners.
  assert (Hom : forall l : list Z, omap snd (pair i <$> (Some <$> l)) = l).
  { induction l as [|a l IH]; csimpl; [done|]. by rewrite IH. }
  assert (Hfi : forall l : list Z,
    filter (fun p : Z * option Z => p.2 = None) (pair i <$> (Some <$> l)) = []).
  { induction l as [|a l IH]; csimpl; [done|]. rewrite filter_cons_False by done. done. }
  split_and!.
  - rewrite fmap_app, omap_app. csimpl. rewrite <- !fmap_take, <- !fmap_drop.
    rewrite fmap_take, fmap_drop, <- fmap_take, <- fmap_drop.
    rewrite !Hom. apply take_drop.
  - rewrite fmap_app, filter_app. csimpl. rewrite filter_cons_True by done.
    rewrite <- fmap_take, <- fmap_drop, !Hfi. done.
  - apply Forall_fmap, Forall_forall. done.
  - rewrite length_fmap, length_app. simpl.
    rewrite length_take, length_drop, !length_fmap. lia.
Qed.

End PlanFacts.

Section SchedulerTheorems.
Context {Edge TN : Type} `{EqDecision Edge} `{!TensorNetwork Edge TN}.

Implicit Types (x : TN) (e : Edge) (c : Contraction) (U V : Node Edge).

(** A loop whose every round appends calls appends their concatenation. *)
Lemma for_each_calls {A : Type} (body : A -> Run -> option Run)
    (P : A -> list (Call Edge) -> Prop) (l : list A) (st st' : Run (Edge:=Edge) (TN:=TN)) :
  (forall a st1 st2, a ∈ l -> body a st1 = Some st2 ->
     exists calls, st2.2 = st1.2 ++ calls /\ P a calls) ->
  for_each body l st = Some st' ->
  exists callss, st'.2 = st.2 ++ concat callss /\ Forall2 P l callss.
Proof.
  revert st. induction l as [|a l IH]; intros st Hbody; simpl.
  - intros [= <-]. exists []. simpl. by rewrite (right_id_L [] (++)).
  - destruct (body a st) as [st1|] eqn:Hb; simpl; [|done]. intros Hl.
    destruct (Hbody _ _ _ ltac:(left) Hb) as (calls & Hc & HP).
    destruct (IH st1) as (callss & Hcs & HPs); [|done|].
    { intros a' s1 s2 Ha'. apply Hbody. by right. }
    exists (calls :: callss). split; [|by constructor].
    simpl. by rewrite Hcs, Hc, (assoc_L (++)).
Qed.

Lemma call_sketch_calls e (m : Z) (st st' : Run (Edge:=Edge) (TN:=TN)) :
  call_sketch e m st = Some st' -> st'.2 = st.2 ++ [CallSketch e m].
Proof.
  unfold call_sketch. destruct (sketch st.1 e m); simpl; [|done]. by intros [= <-].
Qed.

Lemma call_contract_calls (i j : Z) (st st' : Run (Edge:=Edge) (TN:=TN)) :
  call_contract i j st = Some st' -> st'.2 = st.2 ++ [CallContract i j].
Proof.
  unfold call_contract. destruct (contract st.1 i j); simpl; [|done]. by intros [= <-].
Qed.

(** Executing a plan issues the call of each entry, in order. *)
Lemma run_plan_calls e (m : Z) plan (st st' : Run (Edge:=Edge) (TN:=TN)) :
  run_plan e m plan st = Some st' -> st'.2 = st.2 ++ (plan_call e m <$> plan).
Proof.
  intros Hrun.
  assert (Hbody : forall (a : Z * option Z) (st1 st2 : Run (Edge:=Edge) (TN:=TN)),
    a ∈ plan ->
    (let '(i, j) := a in
     match j with None => call_sketch e m | Some j => call_contract i j end) st1 = Some st2 ->
    exists calls, st2.2 = st1.2 ++ calls /\ calls = [plan_call e m a]).
  { intros [i [j|]] st1 st2 _ Hb; simpl in Hb; eexists; split; try done.
    - by apply call_contract_calls.
    - by apply call_sketch_calls. }
  destruct (for_each_calls _ _ _ _ _ Hbody Hrun) as (callss & -> & HP).
  f_equal. clear Hrun Hbody. induction HP as [|entry calls plan callss -> _ IH]; [done|].
  csimpl. by rewrite IH.
Qed.


(** C10. For a non-empty group [D[e]] the plan has one sketch marker and,
    for each contraction of the group, one entry that pairs the anchor with
    the partner read from that contraction, which is its other operand when
    the anchor is one of the two; the group issues the calls of the plan:
    one sketch, of [e], and as many contractions as the group has. *)
Theorem kronecker_group_one_sketch_each_contraction_once
    (m : Z) e (D_e_i : list Contraction) (st st' : Run (Edge:=Edge) (TN:=TN)) :
  D_e_i <> [] ->
  kronecker_group m (e, D_e_i) st = Some st' ->
  exists i plan calls,
    get_node_index_node1 st.1 e = Some i /\
    _calculate_contraction_path_shapes st.1 D_e_i i = Some plan /\
    filter (fun p => p.2 = None) plan = [(i, None)] /\
    filter (fun p => p.2 <> None) plan ≡ₚ pair i ∘ Some <$> j_nodes D_e_i i /\
    (Forall (fun c => c.1 = i \/ c.2 = i) D_e_i ->
       j_nodes D_e_i i = other_operand i <$> D_e_i) /\
    st'.2 = st.2 ++ calls /\
    calls = plan_call e m <$> plan /\
    filter (fun k => is_sketch k) calls = [CallSketch e m] /\
    length (filter (fun k => is_contract k) calls) = length D_e_i /\
    length calls = S (length D_e_i).
Proof.
  intros Hne. unfold kronecker_group.
  destruct D_e_i as [|c0 D0] eqn:HD; [done|]. rewrite <- HD in *.
  replace (length D_e_i =? 0)%nat with false by (subst; done).
  destruct (get_node_index_node1 st.1 e) as [i|] eqn:Hi; simpl; [|done].
  destruct (_calculate_contraction_path_shapes st.1 D_e_i i) as [plan|] eqn:Hplan;
    simpl; [|done].
  intros Hrun%run_plan_calls.
  destruct (calculate_plan_spec _ _ _ _ Hplan)
    as (u & chosen & sizes & Hu & Hperm & Hsizes & Hpl).
  set (k := Z.to_nat (first_min_step sizes 0 (tensor_size u) (-1) + 1)) in *.
  assert (Hsome : forall l : list Z,
    filter (fun p : Z * option Z => p.2 <> None) (pair i ∘ Some <$> l) = pair i ∘ Some <$> l).
  { induction l as [|a l IH]; csimpl; [done|]. rewrite filter_cons_True by done. by rewrite IH. }
  assert (Hcontr : filter (fun p : Z * option Z => p.2 <> None) plan = pair i ∘ Some <$> chosen).
  { rewrite Hpl. unfold list_insert_at. rewrite fmap_app, filter_app. csimpl.
    rewrite filter_cons_False by (simpl; intros Hn; by apply Hn).
    rewrite <- fmap_take, <- fmap_drop, <- !list_fmap_compose, !Hsome.
    by rewrite <- fmap_app, take_drop. }
  destruct (plan_entries i k chosen) as (Hpartners & Hmarker & _ & Hlen).
  rewrite <- Hpl in Hpartners, Hmarker, Hlen.
  assert (Hjl : length chosen = length D_e_i).
  { rewrite Hperm. unfold j_nodes. by rewrite length_map. }
  exists i, plan, (plan_call e m <$> plan).
  split_and!; try done.
  - by rewrite Hcontr, Hperm.
  - intros Hop. unfold j_nodes. apply list_eq_Forall2, Forall2_fmap.
    apply Forall_Forall2_diag.
    eapply Forall_impl; [exact Hop|]. intros [a b] Hab. unfold other_operand. simpl in *.
    destruct (Z.eqb_spec b i) as [->|Hb], (decide (a = i)) as [->|Ha]; try done.
    destruct Hab; done.
  - assert (Hsk : forall q : list (Z * option Z),
      filter (fun k0 : Call Edge => is_sketch k0) (plan_call e m <$> q)
      = (fun _ => CallSketch e m) <$> filter (fun p => p.2 = None) q).
    { induction q as [|[a [b|]] q IH]; [done|..];
        rewrite fmap_cons, !filter_cons; unfold plan_call at 1; simpl;
        repeat case_decide; try done; csimpl; by rewrite IH. }
    rewrite Hsk, Hmarker. done.
  - assert (Hco : forall q : list (Z * option Z),
      length (filter (fun k0 : Call Edge => is_contract k0) (plan_call e m <$> q))
      = length (filter (fun p => p.2 <> None) q)).
    { induction q as [|[a [b|]] q IH]; [done|..];
        rewrite fmap_cons, !filter_cons; unfold plan_call at 1; simpl;
        repeat case_decide; try done; simpl; by rewrite IH. }
    rewrite Hco, Hcontr, length_fmap. done.
  - rewrite length_fmap, Hlen. lia.
Qed.

End SchedulerTheorems.

(** ** The whole run *)

Section EmbedTheorems.
Context {Edge TN : Type} `{EqDecision Edge} `{!TensorNetwork Edge TN} `{!FloatLib}.

Implicit Types (x : TN) (e : Edge) (c : Contraction) (U V : Node Edge).

Lemma partition_step_I_S x D (S_ : list Contraction) I_S c D' S' I_S' :
  partition_step x (D, S_, I_S) c = Some (D', S', I_S') ->
  I_S' = I_S ++ [c] \/ I_S' = I_S.
Proof.
  intros Hstep.
  destruct (partition_step_cases _ _ _ _ _ _ Hstep)
    as [[[= -> -> ->] _]|[(e & D1 & _ & _ & [= -> -> ->])|[[= -> -> ->] _]]]; auto.
Qed.

Lemma partition_loop_I_S x processed acc path acc' :
  acc.2 `sublist_of` processed ->
  partition_loop x acc path = Some acc' ->
  acc'.2 `sublist_of` processed ++ path.
Proof.
  revert processed acc. induction path as [|c path IH]; intros processed acc Hsub; simpl.
  - intros [= <-]. by rewrite (right_id_L [] (++)).
  - destruct (partition_step x acc c) as [acc1|] eqn:Hs; simpl; [|done].
    intros Hl. rewrite (cons_middle c), (assoc_L (++)).
    eapply IH; [|done].
    destruct acc as [[D S_] I_S], acc1 as [[D1 S1] I1]. simpl in *.
    destruct (partition_step_I_S _ _ _ _ _ _ _ _ Hs) as [->| ->].
    + by apply sublist_app.
    + by apply sublist_inserts_r.
Qed.

(** [I_S] keeps the order of the contraction path. *)
Lemma partition_I_S_in_path_order x path (edges_to_sketch : list Edge) D
    (S_ I_S : list Contraction) :
  _partition_contractions x path edges_to_sketch = Some (D, S_, I_S) ->
  I_S `sublist_of` path.
Proof.
  intros Hp. change path with ([] ++ path).
  apply (partition_loop_I_S x [] (dict_from_keys edges_to_sketch [], [], []) path
           (D, S_, I_S)); [constructor|exact Hp].
Qed.


Lemma tree_step_calls (self : EfficientGaussianEmb) (S_ : list Contraction) (m : Z) c
    (st st' : Run (Edge:=Edge) (TN:=TN)) :
  tree_step self S_ m c st = Some st' ->
  st'.2 = st.2 ++ [tree_call (is_tn_embedding self) S_ m c].
Proof.
  unfold tree_step, tree_call. case_decide; [destruct (is_tn_embedding self)|].
  - unfold call_tn_sketch_and_contract_s.
    destruct (tn_sketch_and_contract_s st.1 c.1 c.2 m); simpl; [|done]. by intros [= <-].
  - unfold call_tree_sketch_and_contract.
    destruct (tree_sketch_and_contract st.1 c.1 c.2 m); simpl; [|done]. by intros [= <-].
  - apply call_contract_calls.
Qed.

Lemma tree_pass_trace (self : EfficientGaussianEmb) (S_ I_S : list Contraction) (m : Z)
    (st st' : Run (Edge:=Edge) (TN:=TN)) :
  _contract_and_sketch_tree_embedding self S_ I_S m st = Some st' ->
  st'.2 = st.2 ++ (tree_call (is_tn_embedding self) S_ m <$> I_S).
Proof.
  intros Hrun.
  assert (Hbody : forall c (st1 st2 : Run (Edge:=Edge) (TN:=TN)),
    c ∈ I_S -> tree_step self S_ m c st1 = Some st2 ->
    exists calls, st2.2 = st1.2 ++ calls /\
      calls = [tree_call (is_tn_embedding self) S_ m c]).
  { intros c st1 st2 _ Hb. eexists. split; [by apply tree_step_calls|done]. }
  destruct (for_each_calls _ _ _ _ _ Hbody Hrun) as (callss & -> & HP).
  f_equal. clear Hrun Hbody. induction HP as [|c calls l callss -> _ IH]; [done|].
  csimpl. by rewrite IH.
Qed.




(** C9. The tree-embedding pass issues one call per entry of [I_S], in the
    order of [I_S], which for a partition is the order of the contraction
    path: the joint sketch-and-contract operation with dimension [m] when
    the entry is in [S], the tensor-network one when [is_tn_embedding] is
    set and the tree one otherwise, and the plain contraction when the entry
    is not in [S]. *)
Theorem tree_embedding_pass_calls (self : EfficientGaussianEmb)
    (S_ I_S : list Contraction) (m : Z) (st st' : Run (Edge:=Edge) (TN:=TN)) :
  _contract_and_sketch_tree_embedding self S_ I_S m st = Some st' ->
  st'.2 = st.2 ++
    ((fun c : Contraction =>
        if decide (c ∈ S_)
        then if is_tn_embedding self
             then CallTnSketchAndContract c.1 c.2 m
             else CallTreeSketchAndContract c.1 c.2 m
        else CallContract c.1 c.2) <$> I_S) /\
  forall x path (edges_to_sketch : list Edge) D,
    _partition_contractions x path edges_to_sketch = Some (D, S_, I_S) ->
    I_S `sublist_of` path.
Proof.
  intros Hrun. split.
  - by apply tree_pass_trace in Hrun.
  - intros x path edges_to_sketch D. apply partition_I_S_in_path_order.
Qed.

End EmbedTheorems.

(** ** The dimension planner and the constructor *)

Section DimensionTheorems.
Context {Edge TN : Type} `{EqDecision Edge} `{!TensorNetwork Edge TN} `{!FloatLib}.

Implicit Types (x : TN) (self : EfficientGaussianEmb).

(** [int] and the floor agree once clamped from below by 1, and fail
    together. *)
Lemma py_int_floor (t : float) :
  match py_int t, float_floor t with
  | Some v, Some f => Z.max v 1 = Z.max 1 f
  | None, None => True
  | _, _ => False
  end.
Proof.
  unfold py_int, float_floor. destruct (Prim2SF t) as [s|s| |s m e]; simpl; try done.
  destruct (Z.leb_spec 0 e) as [He|He].
  - assert (0 < 2 ^ e) by (by apply Z.pow_pos_nonneg).
    destruct s; nia.
  - assert (0 < 2 ^ (- e)) by (apply Z.pow_pos_nonneg; lia).
    destruct s.
    + assert (0 <= Z.pos m `quot` 2 ^ (- e)) by (apply Z.quot_pos; lia).
      assert (Z.neg m / 2 ^ (- e) < 1) by (apply Z.div_lt_upper_bound; lia).
      lia.
    + rewrite Z.quot_div_nonneg by lia. lia.
Qed.

(** C5, as the code has it. [calc_m] raises when [delta] is zero (the
    [ZeroDivisionError] of [1 / delta]) and when [eps ** 2] overflows.
    Otherwise, with [t] the binary64 value of
    [(N_E * log(1 / delta) / eps ** 2) * m_scalar]: when [t] is finite, with
    floor [f], [calc_m] returns [max(1, f)], which is at least 1, and is 1
    when [t] is below 1; when [t] is an infinity or a nan, [int] raises. *)
Theorem calc_m_clamped_floor self x :
  (PrimFloat.eqb (delta self) 0%float = true -> calc_m self x = None) /\
  (float_pow (eps self) 2 = None -> calc_m self x = None) /\
  forall inv sq : float,
    float_div 1%float (delta self) = Some inv ->
    float_pow (eps self) 2 = Some sq ->
    let t :=
      PrimFloat.mul
        (PrimFloat.div
           (PrimFloat.mul (float_of_len (length (get_edges_to_sketch x))) (np_log inv))
           sq)
        (m_scalar self) in
    (forall f, float_floor t = Some f ->
       calc_m self x = Some (Z.max 1 f) /\ 1 <= Z.max 1 f /\ (f < 1 -> Z.max 1 f = 1)) /\
    (float_is_finite t = false -> calc_m self x = None).
Proof.
  split_and!.
  - intros Hz. unfold calc_m, float_div. by rewrite Hz.
  - intros Hsq. unfold calc_m. rewrite Hsq. by destruct (float_div 1 (delta self)).
  - intros inv sq Hinv Hsq t. unfold calc_m. rewrite Hinv, Hsq. simpl. fold t.
    pose proof (py_int_floor t) as Hpf. split.
    + intros f Hf. rewrite Hf in Hpf.
      destruct (py_int t) as [v|]; [|done]. simpl. rewrite Hpf.
      split_and!; [done|lia|lia].
    + intros Hfin. unfold float_is_finite in Hfin. unfold py_int.
      by destruct (Prim2SF t).
Qed.

(** C4, as the code has it. The constructor rejects nothing: for every
    [eps], [delta], [m_scalar] and flag it returns an object that holds them
    unchanged. *)
Theorem init_stores_parameters (e d ms : float) (tn : bool) :
  exists self, __init__ e d ms tn = Some self /\
    eps self = e /\ delta self = d /\ m_scalar self = ms /\ is_tn_embedding self = tn.
Proof. eexists. by split_and!. Qed.

End DimensionTheorems.

(** ** The examples *)

Section Examples.
Import Sample.

(** C4 fails as stated: [eps = 0] and [delta = 2] are out of range and the
    constructor returns an object. *)
Lemma init_accepts_invalid_accuracy :
  invalid_accuracy 0%float 2%float = true /\
  __init__ 0%float 2%float 1%float false = Some (mkEmb 0%float 2%float 1%float false).
Proof. split; reflexivity. Qed.

(** C5 fails as stated, for accuracy parameters in range: with
    [eps = 2 ** -700] and [delta = 0.05] the square of [eps] underflows to
    zero, the value is infinite and [int] raises; with [eps = 2 ** 600] the
    square overflows and [**] raises.  The network has three edges to
    sketch. *)
Lemma calc_m_raises_in_range :
  invalid_accuracy (eps emb_small_eps) (delta emb_small_eps) = false /\
  float_pow (eps emb_small_eps) 2 = Some 0%float /\
  calc_m emb_small_eps net1 = None /\
  invalid_accuracy (eps emb_large_eps) (delta emb_large_eps) = false /\
  calc_m emb_large_eps net1 = None.
Proof. split_and!; vm_compute; reflexivity. Qed.

(** The scenario [eps = 0.1], [delta = 0.05], [m_scalar = 5], [N_E = 10]. *)
Example calc_m_scenario : calc_m emb1 net10 = Some 14978.
Proof. vm_compute. reflexivity. Qed.

Lemma calc_m_clamped_floor_witness :
  calc_m emb1 net1 = Some (Z.max 1 4493) /\ 1 <= Z.max 1 4493 /\
  (4493 < 1 -> Z.max 1 4493 = 1).
Proof.
  refine (proj1 (proj2 (proj2 (calc_m_clamped_floor emb1 net1))
                   20%float 0x1.47ae147ae147cp-7%float _ _) 4493 _);
    vm_compute; reflexivity.
Defined.

(** [to_binary64] against the conversion of the primitive floats, at
    integers around [2 ^ 53] and [2 ^ 63]. *)
Example to_binary64_as_primitive_floats :
  Forall (fun z => py_int (PrimFloat.of_uint63 (Uint63.of_Z z)) = Some (to_binary64 z))
    [ 0; 1; 2 ^ 53 - 1; 2 ^ 53; 2 ^ 53 + 1; 2 ^ 53 + 2; 2 ^ 53 + 3;
      2 ^ 62 + 256; 2 ^ 62 + 512; 2 ^ 62 + 768;
      2 ^ 63 - 1024; 2 ^ 63 - 513; 2 ^ 63 - 512; 2 ^ 63 - 8; 2 ^ 63 - 4 ].
Proof. repeat constructor. Qed.

(** C3 on two nodes that share edge 0, where the anchor has another
    dimension of the same size 2: the loop tracks the shape [[3]] and
    returns size 3 at step 0, while the contraction by edge identity has
    shape [[2; 3]], of size 6, above the starting size 4. *)
Theorem tracked_shape_drops_dimensions_of_equal_size :
  _contraction_path_minimize_U node_u [node_v] = Some (Int 3, 0) /\
  tracked_shapes [(0%nat, 2); (1%nat, 2)] node_u [node_v] (tensor_shape node_u)
    = Some [[3]] /\
  contracted_shapes (labelled node_u) [node_v] = [[2; 3]] /\
  ~ shapes_tracked_by_edge node_u [node_v].
Proof.
  split_and!; [reflexivity..|].
  intros Hclaim. specialize (Hclaim _ _ eq_refl eq_refl). discriminate.
Qed.





Lemma partition_rule_in_branch_order_witness :
  let d_u := length (get_all_dangling (mkNode [2; 3; 4]%nat [4; 5; 2] [3]%nat)) in
  let d_v := length (get_all_dangling (mkNode [4; 5]%nat [2; 6] [5]%nat)) in
  let both := (0 < d_u)%nat /\ (0 < d_v)%nat in
  let result := _partition_contractions net1 ([(0, 1)] ++ [(2, 3)]) [1; 3; 5]%nat in
  let D := [(1%nat, [(0, 1)]); (3%nat, []); (5%nat, [])] in
  (both -> result = Some (D, [] ++ [(2, 3)], [] ++ [(2, 3)])) /\
  (~ both -> d_u = 1%nat ->
     forall e, get_all_dangling (mkNode [2; 3; 4]%nat [4; 5; 2] [3]%nat) = [e] ->
     result = dict_append D e (2, 3) ≫= fun D' => Some (D', [], [])) /\
  (~ both -> d_u <> 1%nat -> d_v = 1%nat ->
     forall e, get_all_dangling (mkNode [4; 5]%nat [2; 6] [5]%nat) = [e] ->
     result = dict_append D e (2, 3) ≫= fun D' => Some (D', [], [])) /\
  (~ both -> d_u <> 1%nat -> d_v <> 1%nat ->
     result = Some (D, [], [] ++ [(2, 3)])).
Proof.
  apply (partition_rule_in_branch_order net1 [(0, 1)] [1; 3; 5]%nat (2, 3)); reflexivity.
Defined.

Lemma partition_sound_witness :
  (forall e l c, dict_get partition1.1.1 e = Some l -> c ∈ l -> one_sole_carrier net1 c e) /\
  partition1.1.2 ⊆ partition1.2 /\
  (forall c, c ∈ path1 ->
     (c ∈ partition1.2 /\ forall e l, dict_get partition1.1.1 e = Some l -> c ∉ l) \/
     ((c ∉ partition1.2) /\ exists e l, dict_get partition1.1.1 e = Some l /\ c ∈ l /\
        forall e' l', dict_get partition1.1.1 e' = Some l' -> c ∈ l' -> e' = e)) /\
  path1 ≡ₚ partition1.2 ++ concat partition1.1.1.*2.
Proof.
  apply (partition_sound net1 path1 [1; 3; 5]%nat). reflexivity.
Defined.

Lemma tree_embedding_pass_calls_witness :
  tree1.2 = [] ++
    ((fun c : Contraction =>
        if decide (c ∈ partition1.1.2)
        then if is_tn_embedding emb1
             then CallTnSketchAndContract c.1 c.2 7
             else CallTreeSketchAndContract c.1 c.2 7
        else CallContract c.1 c.2) <$> partition1.2) /\
  forall (x : Net) path (edges_to_sketch : list nat) D,
    _partition_contractions x path edges_to_sketch = Some (D, partition1.1.2, partition1.2) ->
    partition1.2 `sublist_of` path.
Proof.
  apply (tree_embedding_pass_calls emb1 partition1.1.2 partition1.2 7 (net1, []) tree1).
  vm_compute. reflexivity.
Defined.

Lemma kronecker_group_one_sketch_each_contraction_once_witness :
  exists i plan calls,
    get_node_index_node1 net2 2%nat = Some i /\
    _calculate_contraction_path_shapes net2 path2 i = Some plan /\
    filter (fun p => p.2 = None) plan = [(i, None)] /\
    filter (fun p => p.2 <> None) plan ≡ₚ pair i ∘ Some <$> j_nodes path2 i /\
    (Forall (fun c => c.1 = i \/ c.2 = i) path2 ->
       j_nodes path2 i = other_operand i <$> path2) /\
    group2.2 = [] ++ calls /\
    calls = plan_call 2%nat 7 <$> plan /\
    filter (fun k => is_sketch k) calls = [CallSketch 2%nat 7] /\
    length (filter (fun k => is_contract k) calls) = length path2 /\
    length calls = S (length path2).
Proof.
  apply (kronecker_group_one_sketch_each_contraction_once 7 2%nat path2 (net2, []) group2).
  - discriminate.
  - vm_compute. reflexivity.
Defined.

End Examples.

(** ** More on the partitioner *)

Section PartitionCoverage.
Context {Edge TN : Type} `{EqDecision Edge} `{!TensorNetwork Edge TN}.

Implicit Types (x : TN) (e : Edge) (c : Contraction).
Implicit Types (D : list (Edge * list Contraction)) (I_S : list Contraction).

(** One round of the loop, by the routing of its entry. *)
Lemma partition_step_route x D (S_ : list Contraction) I_S c :
  partition_step x (D, S_, I_S) c =
  if known x c
  then match bucket_of x c with
       | Some e => dict_append D e c ≫= fun D' => Some (D', S_, I_S)
       | None =>
           if both_pending x c then Some (D, S_ ++ [c], I_S ++ [c])
           else Some (D, S_, I_S ++ [c])
       end
  else None.
Proof.
  unfold partition_step, known, bucket_of, both_pending, dangling_of.
  destruct (node_at x c.1) as [u|]; simpl; [|done].
  destruct (node_at x c.2) as [v|]; simpl; [|done].
  destruct (get_all_dangling u) as [|e1 [|e2 lu]];
    destruct (get_all_dangling v) as [|f1 [|f2 lv]]; done.
Qed.

(** The accumulators after the loop, from those before it. *)
Lemma partition_loop_filters x D0 (S0 : list Contraction) I0 path D (S_ : list Contraction) I_S :
  partition_loop x (D0, S0, I0) path = Some (D, S_, I_S) ->
  S_ = S0 ++ filter (fun c => both_pending x c) path /\
  I_S = I0 ++ filter (fun c => bucket_of x c = None) path /\
  forall e, dict_get D e =
    (fun l => l ++ filter (fun c => bucket_of x c = Some e) path) <$> dict_get D0 e.
Proof.
  revert D0 S0 I0. induction path as [|c path IH]; intros D0 S0 I0.
  - simpl. intros [= -> -> ->]. rewrite !filter_nil, !(right_id_L [] (++)). split_and!; [done..|].
    intros e. destruct (dict_get D e); simpl; [|done].
    by rewrite filter_nil, (right_id_L [] (++)).
  - change (partition_loop x (D0, S0, I0) (c :: path))
      with (partition_step x (D0, S0, I0) c ≫= fun acc' => partition_loop x acc' path).
    rewrite partition_step_route.
    destruct (known x c); simpl; [|done].
    destruct (bucket_of x c) as [e0|] eqn:Hb.
    + destruct (dict_append D0 e0 c) as [D1|] eqn:Ha; simpl; [|done].
      intros (-> & -> & HD)%IH.
      assert (Hnb : both_pending x c = false).
      { unfold bucket_of in Hb. by destruct (both_pending x c). }
      rewrite !filter_cons, Hnb. simpl.
      rewrite decide_False by (rewrite Hb; done).
      split_and!; [done..|].
      intros e. rewrite HD, (dict_append_get _ _ _ _ Ha e), filter_cons, Hb.
      destruct (decide (e = e0)) as [->|Hne].
      * rewrite decide_True by done.
        destruct (dict_get D0 e0); simpl; [|done]. by rewrite <- (assoc_L (++)).
      * rewrite decide_False by congruence. done.
    + assert (HD0 : forall (S1 I1 : list Contraction),
        partition_loop x (D0, S1, I1) path = Some (D, S_, I_S) ->
        S_ = S1 ++ filter (fun c => both_pending x c) path /\
        I_S = I1 ++ filter (fun c => bucket_of x c = None) path /\
        forall e, dict_get D e =
          (fun l => l ++ filter (fun c => bucket_of x c = Some e) (c :: path)) <$> dict_get D0 e).
      { intros S1 I1 (-> & -> & HD)%IH. split_and!; [done..|].
        intros e. rewrite HD, filter_cons, Hb.
        destruct (decide (None = Some e)); [discriminate|done]. }
      rewrite !filter_cons, Hb. destruct (decide (@None Edge = None)) as [_|]; [|done].
      destruct (both_pending x c); intros (-> & -> & HD)%HD0; simpl;
        rewrite <- ?(assoc_L (++)); done.
Qed.

(** X1. The partition is a filter of the path, entry by entry: [S] holds, in
    path order, the entries whose two operands have a dimension to sketch;
    [I_S] those routed to no bucket; and the bucket of an edge to sketch
    those routed to that edge. *)
Theorem partition_is_filter_of_path x path (edges_to_sketch : list Edge) D
    (S_ : list Contraction) I_S :
  _partition_contractions x path edges_to_sketch = Some (D, S_, I_S) ->
  S_ = filter (fun c => both_pending x c) path /\
  I_S = filter (fun c => bucket_of x c = None) path /\
  forall e, e ∈ edges_to_sketch ->
    dict_get D e = Some (filter (fun c => bucket_of x c = Some e) path).
Proof.
  intros (-> & -> & HD)%partition_loop_filters. split_and!; [done..|].
  intros e He. rewrite HD.
  destruct (dict_from_keys_keys edges_to_sketch ([] : list Contraction)) as [_ Hk].
  apply Hk, dict_get_is_Some in He as [l Hl]. rewrite Hl.
  by apply dict_from_keys_get in Hl as ->.
Qed.

Lemma dict_get_is_Some_iff {V : Type} (M : list (Edge * V)) e :
  is_Some (dict_get M e) <-> e ∈ M.*1.
Proof.
  split; [|apply dict_get_is_Some].
  intros [v Hv%dict_get_elem_of]. apply list_elem_of_fmap. by exists (e, v).
Qed.

Lemma partition_loop_returns_iff x D0 (S0 : list Contraction) I0 path :
  is_Some (partition_loop x (D0, S0, I0) path) <->
  Forall (fun c => known x c /\ forall e, bucket_of x c = Some e -> e ∈ D0.*1) path.
Proof.
  revert D0 S0 I0. induction path as [|c path IH]; intros D0 S0 I0.
  - simpl. split; [constructor|eauto].
  - change (partition_loop x (D0, S0, I0) (c :: path))
      with (partition_step x (D0, S0, I0) c ≫= fun acc' => partition_loop x acc' path).
    rewrite partition_step_route, Forall_cons.
    destruct (known x c); simpl.
    2:{ split; [by intros [? ?]|]. by intros [[[] _] _]. }
    destruct (bucket_of x c) as [e0|] eqn:Hb.
    + destruct (dict_append D0 e0 c) as [D1|] eqn:Ha; simpl.
      * rewrite IH, (dict_append_keys _ _ _ _ Ha). split; [|by intros [_ ?]].
        intros HF. split_and!; [done| |done].
        intros e [= <-]. apply dict_get_is_Some_iff, (dict_append_is_Some D0 e0 c). eauto.
      * split; [by intros [? ?]|]. intros [[_ He] _].
        specialize (He e0 eq_refl).
        apply dict_get_is_Some_iff, (dict_append_is_Some D0 e0 c) in He as [? He].
        rewrite Ha in He. discriminate.
    + destruct (both_pending x c); simpl; rewrite IH; split;
        try (by intros [_ ?]); intros HF; split_and!; done.
Qed.

(** X2. The partitioner returns if and only if, for every entry of the
    path, both node ids are nodes of the network and, when the entry is
    routed to a bucket, that edge is one of the edges to sketch; it raises
    otherwise. *)
Theorem partition_returns_iff x path (edges_to_sketch : list Edge) :
  is_Some (_partition_contractions x path edges_to_sketch) <->
  Forall (fun c => known x c /\
            forall e, bucket_of x c = Some e -> e ∈ edges_to_sketch) path.
Proof.
  unfold _partition_contractions. rewrite partition_loop_returns_iff.
  destruct (dict_from_keys_keys edges_to_sketch ([] : list Contraction)) as [_ Hk].
  apply Forall_proper; [|done]. intros c. split; intros [? He]; split; try done;
    intros e Hb; apply Hk; auto.
Qed.

Lemma dict_from_keys_NoDup {V : Type} (ks : list Edge) (v : V) :
  NoDup ks -> (dict_from_keys ks v).*1 = ks.
Proof.
  unfold dict_from_keys.
  assert (G : forall (M : list (Edge * V)),
    NoDup (M.*1 ++ ks) -> (foldl (fun M k => dict_set M k v) M ks).*1 = M.*1 ++ ks).
  { induction ks as [|k ks IH]; intros M Hnd; simpl.
    - by rewrite (right_id_L [] (++)).
    - assert (Hk : k ∉ M.*1).
      { apply NoDup_app in Hnd as (_ & Hd & _). intros Hin. apply (Hd k Hin). left. }
      rewrite IH; rewrite dict_set_keys, decide_False by done.
      + by rewrite <- (assoc_L (++)).
      + by rewrite <- (assoc_L (++)). }
  intros Hnd. by rewrite G.
Qed.

(** X3. When the edges to sketch are distinct, the buckets of [D] are those
    edges, in their order, whatever the contraction path. *)
Theorem partition_buckets_in_order x path (edges_to_sketch : list Edge) D
    (S_ : list Contraction) I_S :
  NoDup edges_to_sketch ->
  _partition_contractions x path edges_to_sketch = Some (D, S_, I_S) ->
  D.*1 = edges_to_sketch.
Proof.
  intros Hnd Hp. apply partition_loop_keys in Hp. simpl in Hp. rewrite Hp.
  by apply dict_from_keys_NoDup.
Qed.

End PartitionCoverage.

(** ** More on the Kronecker scheduler *)

Section SchedulerCoverage.
Context {Edge TN : Type} `{EqDecision Edge} `{!TensorNetwork Edge TN}.

Implicit Types (x : TN) (e : Edge) (c : Contraction) (U V : Node Edge).

Lemma tracked_shapes_length (U_edges : list (Edge * Z)) U nodes shape shapes :
  tracked_shapes U_edges U nodes shape = Some shapes -> length shapes = length nodes.
Proof.
  revert shape shapes. induction nodes as [|V nodes IH]; intros shape shapes; simpl.
  - by intros [= <-].
  - destruct (contracted_indices U_edges U V) as [ci|]; simpl; [|done].
    destruct (tracked_shapes U_edges U nodes (new_shape ci shape V)) as [rest|] eqn:Hr;
      simpl; [|done].
    intros [= <-]. simpl. f_equal. by eapply IH.
Qed.

Lemma build_U_edges_None (es : list Edge) (shape : list Z) (i : nat) acc :
  (i <= length shape)%nat -> (length shape < length es + i)%nat ->
  build_U_edges es shape i acc = None.
Proof.
  revert i acc. induction es as [|e es IH]; intros i acc Hi Hlen; simpl in *; [lia|].
  destruct (shape !! i) as [d|] eqn:Hd; simpl; [|done].
  apply lookup_lt_Some in Hd. apply IH; lia.
Qed.

(** X4. When [_contraction_path_minimize_U] returns [(s, idx)], the index
    is [-1] or the index of a partner, [s] is at most the starting size of
    the anchor, and the index is [-1] exactly when [s] is the starting size,
    that is when no step went below it. *)
Theorem minimize_U_result_bounds U (contraction_order : list (Node Edge))
    (s : Number) (idx : Z) :
  _contraction_path_minimize_U U contraction_order = Some (s, idx) ->
  -1 <= idx < Z.of_nat (length contraction_order) /\
  value s <= tensor_size U /\
  (idx = -1 <-> value s = tensor_size U).
Proof.
  unfold _contraction_path_minimize_U.
  destruct (build_U_edges (edges U) (tensor_shape U) 0 []) as [UE|]; simpl; [|done].
  pose proof (minimize_loop_tracked UE U contraction_order 0 (tensor_shape U)
                (Int (tensor_size U)) (-1)) as Hloop.
  destruct (tracked_shapes UE U contraction_order (tensor_shape U)) as [shapes|] eqn:Hs;
    [|by rewrite Hloop].
  destruct Hloop as (a & -> & Ha); [done|]. simpl in Ha.
  intros [= <- <-]. apply tracked_shapes_length in Hs. rewrite Ha.
  pose proof (first_min_step_spec [tensor_size U] (map shape_size shapes) (tensor_size U) (-1))
    as Hspec.
  change (Z.of_nat (length [tensor_size U]) - 1) with 0 in Hspec.
  destruct Hspec as (Hk & Hat & Hall); simpl; [lia|done| |].
  { intros j b Hj. apply list_lookup_singleton_Some in Hj as [-> ->]. split; lia. }
  simpl in Hk, Hat, Hall. rewrite length_map, Hs in Hk.
  destruct (foldr_min_le (tensor_size U) (map shape_size shapes)) as [Hle _].
  split_and!; [lia..|]. split.
  - intros Hi. rewrite Hi in Hat. simpl in Hat. by injection Hat as <-.
  - intros Hmin.
    destruct (decide (first_min_step (map shape_size shapes) 0 (tensor_size U) (-1) = -1))
      as [|Hne]; [done|].
    destruct (Hall 0%nat (tensor_size U) eq_refl) as [_ Hlt].
    rewrite Hmin in Hlt. lia.
Qed.

(** X5. [_contraction_path_minimize_U] raises exactly when the anchor has
    more edges than its tensor has dimensions (the [IndexError] of
    [current_shape[i]]); the lookups [U_edges[edge]] never raise. *)
Theorem minimize_U_raises_iff U (contraction_order : list (Node Edge)) :
  _contraction_path_minimize_U U contraction_order = None <->
  (length (tensor_shape U) < length (edges U))%nat.
Proof.
  unfold _contraction_path_minimize_U. split.
  - intros Hnone.
    destruct (decide (length (tensor_shape U) < length (edges U))%nat) as [|Hge]; [done|].
    destruct (build_U_edges_is_Some (edges U) (tensor_shape U) 0 []) as (UE & HUE & Hget);
      [lia|].
    rewrite HUE in Hnone. simpl in Hnone.
    pose proof (minimize_loop_tracked UE U contraction_order 0 (tensor_shape U)
                  (Int (tensor_size U)) (-1)) as Hloop.
    destruct (tracked_shapes_is_Some UE U contraction_order (tensor_shape U)) as [shapes Hs].
    { intros e He. apply Hget. by left. }
    rewrite Hs in Hloop. destruct Hloop as (a & Hloop & _); [done|]. congruence.
  - intros Hlt. rewrite build_U_edges_None; [done|lia|lia].
Qed.

Lemma permutations_head {A : Type} (l : list A) : permutations l !! 0%nat = Some l.
Proof.
  unfold permutations. induction l as [|a l IH]; [done|].
  change (permutations_upto (length (a :: l)) (a :: l))
    with (flat_map (fun q => map (cons q.1) (permutations_upto (length l) q.2))
            (picks (a :: l))).
  simpl. destruct (permutations_upto (length l) l) as [|p ps]; [done|].
  simpl in *. by injection IH as ->.
Qed.

Lemma flat_map_length_const {A B : Type} (f : A -> list B) (l : list A) (m : nat) :
  (forall a, a ∈ l -> length (f a) = m) -> length (flat_map f l) = (length l * m)%nat.
Proof.
  induction l as [|a l IH]; intros Hf; simpl; [done|].
  rewrite length_app, Hf by left. rewrite IH; [done|]. intros b Hb. apply Hf. by right.
Qed.

Lemma picks_length {A : Type} (l : list A) : length (picks l) = length l.
Proof. induction l as [|a l IH]; simpl; [done|]. by rewrite length_map, IH. Qed.

Lemma permutations_upto_length {A : Type} (n : nat) (l : list A) :
  length l = n -> length (permutations_upto n l) = fact n.
Proof.
  revert l. induction n as [|n IH]; intros l Hlen.
  - by destruct l.
  - destruct l as [|a0 l]; [done|].
    change (permutations_upto (S n) (a0 :: l))
      with (flat_map (fun q => map (cons q.1) (permutations_upto n q.2)) (picks (a0 :: l))).
    rewrite (flat_map_length_const _ _ (fact n)).
    + rewrite picks_length, Hlen. simpl. lia.
    + intros [b r] Hin. rewrite length_map. apply IH.
      apply picks_perm, Permutation_length in Hin. simpl in *. lia.
Qed.

(** X6. For a group of [n] contractions the scheduler simulates [n!]
    orders: the list of permutations it runs through has that length. *)
Theorem kronecker_simulates_factorial_orders (D_e_i : list Contraction) (i : Z) :
  length (permutations (j_nodes D_e_i i)) = fact (length D_e_i).
Proof.
  unfold permutations. rewrite permutations_upto_length; [|done].
  unfold j_nodes. by rewrite length_map.
Qed.

(** X7. When binary64 holds the least simulated size of every order as it
    is, the scheduler takes the first order, as [itertools.permutations]
    lists them, that attains the least minimum: no order has a smaller least
    size, and every order listed before the chosen one has a strictly
    greater one.  So the order of [D[e]] is kept whenever its least size is
    not above that of the chosen order. *)
Theorem kronecker_ties_keep_first x (D_e_i : list Contraction) (i : Z) plan u :
  let partners := map (fun c : Contraction => if c.2 =? i then c.1 else c.2) D_e_i in
  _calculate_contraction_path_shapes x D_e_i i = Some plan ->
  node_at x i = Some u ->
  least_sizes_exact x u partners ->
  exists (k : nat) sizes,
    permutations partners !! k = Some (plan_partners plan) /\
    simulated_sizes x u (plan_partners plan) = Some sizes /\
    (forall p sizes_p,
       p ≡ₚ partners ->
       simulated_sizes x u p = Some sizes_p ->
       min_achieved u sizes <= min_achieved u sizes_p) /\
    (forall j p sizes_p, (j < k)%nat ->
       permutations partners !! j = Some p ->
       simulated_sizes x u p = Some sizes_p ->
       min_achieved u sizes < min_achieved u sizes_p) /\
    (forall sizes0,
       simulated_sizes x u partners = Some sizes0 ->
       min_achieved u sizes0 <= min_achieved u sizes ->
       plan_partners plan = partners).
Proof.
  intros partners Hplan Hu Hexact.
  destruct (calculate_plan_exact _ _ _ _ _ Hplan Hu Hexact)
    as (k & chosen & sizes & Hk & Hsizes & Hfirst & ->).
  destruct (plan_entries i (Z.to_nat (first_min_step sizes 0 (tensor_size u) (-1) + 1)) chosen)
    as (-> & _).
  exists k, sizes. split_and!; [done..| | |].
  - intros p sizes_p Hp Hsp.
    apply permutations_elem, list_elem_of_lookup_1 in Hp as [j Hj].
    destruct (Hfirst j p Hj) as (sizes_p' & Hsp' & Hle & _).
    rewrite Hsp in Hsp'. by injection Hsp' as <-.
  - intros j p sizes_p Hjk Hj Hsp. destruct (Hfirst j p Hj) as (sizes_p' & Hsp' & _ & Hlt).
    rewrite Hsp in Hsp'. injection Hsp' as <-. by apply Hlt.
  - intros sizes0 Hs0 Hle. destruct k as [|k].
    + change (permutations (j_nodes D_e_i i) !! 0%nat = Some chosen) in Hk.
      rewrite permutations_head in Hk. by injection Hk as <-.
    + destruct (Hfirst 0%nat _ (permutations_head _)) as (sizes0' & Hs0' & _ & Hlt).
      change (j_nodes D_e_i i) with partners in Hs0'.
      rewrite Hs0 in Hs0'. injection Hs0' as <-. specialize (Hlt ltac:(lia)). lia.
Qed.

(** X17. Whatever order the scheduler chooses, the plan is a permutation of
    the partners, each read from its contraction as [u if v == i else v],
    with the sketch marker right after the step at which the anchor first
    reaches the least simulated size of that order: position [k] of the run,
    counting the start as position 0, holds the least size, every position
    before it a greater one, and the plan is the first [k] contractions,
    then the sketch, then the other contractions. *)
Theorem kronecker_sketch_after_first_least_step x (D_e_i : list Contraction) (i : Z) plan u :
  _calculate_contraction_path_shapes x D_e_i i = Some plan ->
  node_at x i = Some u ->
  exists sizes (k : nat),
    plan_partners plan ≡ₚ map (fun c : Contraction => if c.2 =? i then c.1 else c.2) D_e_i /\
    simulated_sizes x u (plan_partners plan) = Some sizes /\
    (tensor_size u :: sizes) !! k = Some (min_achieved u sizes) /\
    (forall j s, (tensor_size u :: sizes) !! j = Some s -> (j < k)%nat ->
       min_achieved u sizes < s) /\
    plan = (pair i ∘ Some <$> take k (plan_partners plan))
           ++ (i, None) :: (pair i ∘ Some <$> drop k (plan_partners plan)).
Proof.
  intros Hplan Hu.
  destruct (calculate_plan_spec _ _ _ _ Hplan)
    as (u' & chosen & sizes & Hu' & Hperm & Hsizes & ->).
  rewrite Hu in Hu'. injection Hu' as <-.
  destruct (first_min_position u sizes) as [Hat Hfirst].
  destruct (plan_entries i (Z.to_nat (first_min_step sizes 0 (tensor_size u) (-1) + 1)) chosen)
    as (-> & _).
  exists sizes, (Z.to_nat (first_min_step sizes 0 (tensor_size u) (-1) + 1)).
  split_and!; [done..|].
  unfold list_insert_at. rewrite fmap_app. csimpl.
  by rewrite <- fmap_take, <- fmap_drop, <- !list_fmap_compose.
Qed.

(** X8. A group of one contraction: the plan contracts and then sketches
    when the simulated contraction makes the anchor smaller, and sketches
    first otherwise. *)
Theorem kronecker_single_contraction_plan x c (i : Z) plan u (s : Z) :
  _calculate_contraction_path_shapes x [c] i = Some plan ->
  node_at x i = Some u ->
  simulated_sizes x u (j_nodes [c] i) = Some [s] ->
  let j := if c.2 =? i then c.1 else c.2 in
  plan = if s <? tensor_size u then [(i, Some j); (i, None)]
         else [(i, None); (i, Some j)].
Proof.
  intros Hplan Hu Hs j.
  destruct (calculate_plan_spec _ _ _ _ Hplan)
    as (u' & chosen & sizes & Hu' & Hperm & Hsizes & ->).
  rewrite Hu in Hu'. injection Hu' as <-.
  simpl in Hperm. apply Permutation_singleton_r in Hperm as ->.
  simpl in Hs. rewrite Hs in Hsizes. injection Hsizes as <-.
  simpl. subst j. by destruct (s <? tensor_size u).
Qed.

End SchedulerCoverage.

(** ** More on the whole run *)

Section EmbedCoverage.
Context {Edge TN : Type} `{EqDecision Edge} `{!TensorNetwork Edge TN} `{!FloatLib}.

Implicit Types (x : TN) (e : Edge) (c : Contraction).

Lemma plan_calls_of_partners e (m i : Z) (l : list Z) :
  plan_call e m <$> (pair i <$> (Some <$> l)) = CallContract i <$> l.
Proof. induction l as [|a l IH]; csimpl; [done|]. by rewrite IH. Qed.

(** The calls of a plan: contractions with the anchor, and one sketch. *)
Lemma plan_calls_explicit e (m i : Z) (k : nat) (chosen : list Z) :
  plan_call e m <$> (pair i <$> list_insert_at k None (Some <$> chosen)) =
  (CallContract i <$> take k chosen) ++ CallSketch e m :: (CallContract i <$> drop k chosen).
Proof.
  unfold list_insert_at. rewrite <- fmap_take, <- fmap_drop, !fmap_app, !fmap_cons.
  by rewrite !plan_calls_of_partners.
Qed.

Lemma contracts_not_sketch (i : Z) (l : list Z) :
  Forall (fun k : Call Edge => is_sketch k \/ is_contract k) (CallContract i <$> l) /\
  filter (fun k : Call Edge => negb (is_sketch k)) (CallContract i <$> l) = CallContract i <$> l.
Proof.
  induction l as [|a l [IH1 IH2]]; csimpl; [by split|]. split.
  - constructor; [by right|done].
  - rewrite filter_cons_True by done. by rewrite IH2.
Qed.

(** The calls of one group of the Kronecker pass: sketches and plain
    contractions only, one contraction for each entry of the group. *)
Lemma kronecker_group_calls_shape (m : Z) e (D_e_i : list Contraction)
    (st st' : Run (Edge:=Edge) (TN:=TN)) :
  kronecker_group m (e, D_e_i) st = Some st' ->
  exists calls, st'.2 = st.2 ++ calls /\
    Forall (fun k => is_sketch k \/ is_contract k) calls /\
    length (filter (fun k => negb (is_sketch k)) calls) = length D_e_i.
Proof.
  unfold kronecker_group. destruct D_e_i as [|c0 D0] eqn:HD.
  - simpl. intros Hs%call_sketch_calls. exists [CallSketch e m].
    split_and!; [done| |done]. constructor; [by left|done].
  - rewrite <- HD. replace (length D_e_i =? 0)%nat with false by (subst; done).
    destruct (get_node_index_node1 st.1 e) as [i|]; simpl; [|done].
    destruct (_calculate_contraction_path_shapes st.1 D_e_i i) as [plan|] eqn:Hplan;
      simpl; [|done].
    intros Hrun%run_plan_calls. exists (plan_call e m <$> plan). split; [done|].
    destruct (calculate_plan_spec _ _ _ _ Hplan) as (u & chosen & sizes & _ & Hperm & _ & ->).
    rewrite plan_calls_explicit.
    destruct (contracts_not_sketch i (take (Z.to_nat (first_min_step sizes 0 (tensor_size u) (-1) + 1)) chosen))
      as [Ha1 Ha2].
    destruct (contracts_not_sketch i (drop (Z.to_nat (first_min_step sizes 0 (tensor_size u) (-1) + 1)) chosen))
      as [Hb1 Hb2].
    split.
    + apply Forall_app. split; [done|]. constructor; [by left|done].
    + rewrite filter_app, filter_cons_False by (simpl; tauto).
      rewrite Ha2, Hb2, <- fmap_app, take_drop, length_fmap, Hperm.
      unfold j_nodes. by rewrite length_map.
Qed.

Lemma tree_calls_not_sketch (tn : bool) (S_ I_S : list Contraction) (m : Z) :
  filter (fun k : Call Edge => negb (is_sketch k)) (tree_call tn S_ m <$> I_S)
    = tree_call tn S_ m <$> I_S /\
  Forall (fun k : Call Edge => ~ is_sketch k) (tree_call tn S_ m <$> I_S).
Proof.
  assert (Hc : forall c, ~ is_sketch (tree_call (Edge:=Edge) tn S_ m c)).
  { intros c. unfold tree_call. destruct (decide (c ∈ S_)); [destruct tn|]; simpl; tauto. }
  induction I_S as [|c I_S [IH1 IH2]]; csimpl; [by split|]. split.
  - rewrite filter_cons_True; [by rewrite IH1|].
    specialize (Hc c). by destruct (is_sketch (tree_call tn S_ m c)).
  - by constructor.
Qed.

(** The calls of the Kronecker pass, group by group. *)
Lemma kronecker_pass_calls_shape (D : list (Edge * list Contraction)) (m : Z)
    (st st' : Run (Edge:=Edge) (TN:=TN)) :
  _contract_and_sketch_kronecker_product D m st = Some st' ->
  exists calls, st'.2 = st.2 ++ calls /\
    Forall (fun k => is_sketch k \/ is_contract k) calls /\
    length (filter (fun k => negb (is_sketch k)) calls) = length (concat D.*2).
Proof.
  intros Hk.
  assert (Hbody : forall (item : Edge * list Contraction) (st1 st2 : Run (Edge:=Edge) (TN:=TN)),
    item ∈ D -> kronecker_group m item st1 = Some st2 ->
    exists cs, st2.2 = st1.2 ++ cs /\
      (Forall (fun k => is_sketch k \/ is_contract k) cs /\
       length (filter (fun k => negb (is_sketch k)) cs) = length item.2)).
  { intros [e l] st1 st2 _. apply kronecker_group_calls_shape. }
  destruct (for_each_calls _ _ _ _ _ Hbody Hk) as (callss & Hst & HP).
  exists (concat callss). split; [done|]. clear -HP.
  induction HP as [|[e l] cs D callss [Hcs1 Hcs2] _ [IH1 IH2]]; csimpl; [by split|].
  split; [by apply Forall_app|].
  rewrite filter_app, !length_app, Hcs2, IH2. done.
Qed.

(** The contractions of one group of the Kronecker pass: one for each entry
    of the group, between the anchor and the partner read from the entry. *)
Lemma kronecker_group_contracts (m : Z) e (D_e_i : list Contraction)
    (st st' : Run (Edge:=Edge) (TN:=TN)) :
  kronecker_group m (e, D_e_i) st = Some st' ->
  exists calls (i : Z), st'.2 = st.2 ++ calls /\
    filter (fun k => negb (is_sketch k)) calls
      ≡ₚ (fun c : Contraction => CallContract i (if c.2 =? i then c.1 else c.2)) <$> D_e_i.
Proof.
  unfold kronecker_group. destruct D_e_i as [|c0 D0] eqn:HD.
  - simpl. intros Hs%call_sketch_calls. exists [CallSketch e m], 0. split; [done|].
    by rewrite filter_cons_False by (simpl; tauto).
  - rewrite <- HD. replace (length D_e_i =? 0)%nat with false by (subst; done).
    destruct (get_node_index_node1 st.1 e) as [i|]; simpl; [|done].
    destruct (_calculate_contraction_path_shapes st.1 D_e_i i) as [plan|] eqn:Hplan;
      simpl; [|done].
    intros Hrun%run_plan_calls. exists (plan_call e m <$> plan), i. split; [done|].
    destruct (calculate_plan_spec _ _ _ _ Hplan) as (u & chosen & sizes & _ & Hperm & _ & ->).
    rewrite plan_calls_explicit.
    destruct (contracts_not_sketch i (take (Z.to_nat (first_min_step sizes 0 (tensor_size u) (-1) + 1)) chosen))
      as [_ Ha].
    destruct (contracts_not_sketch i (drop (Z.to_nat (first_min_step sizes 0 (tensor_size u) (-1) + 1)) chosen))
      as [_ Hb].
    rewrite filter_app, filter_cons_False by (simpl; tauto).
    rewrite Ha, Hb, <- fmap_app, take_drop, Hperm. unfold j_nodes.
    change (map (fun c : Contraction => if c.2 =? i then c.1 else c.2) D_e_i)
      with ((fun c : Contraction => if c.2 =? i then c.1 else c.2) <$> D_e_i).
    by rewrite <- list_fmap_compose.
Qed.

Lemma filter_concat {A : Type} (P : A -> Prop) `{!forall a, Decision (P a)}
    (ls : list (list A)) :
  filter P (concat ls) = concat (filter P <$> ls).
Proof. induction ls as [|l ls IH]; csimpl; [done|]. by rewrite filter_app, IH. Qed.

(** X9. When [embed] returns, its calls other than the sketches are: bucket
    after bucket of [D], one contraction for each entry of the bucket,
    between one anchor [i] for the whole bucket and the partner read from
    the entry as [u if v == i else v]; then one call for each entry of
    [I_S], on the two nodes of the entry, in the order of the path.  The
    path is a permutation of [I_S] and the entries of the buckets, so these
    calls are as many as the path has entries. *)
Theorem embed_calls_one_contraction_per_entry (self : EfficientGaussianEmb) x
    (contraction_path : list Contraction) x' (calls : list (Call Edge)) :
  embed self x contraction_path = Some (x', calls) ->
  exists m D (S_ I_S : list Contraction) (groups : list (list (Call Edge))),
    calc_m self x = Some m /\
    _partition_contractions x contraction_path (get_edges_to_sketch x) = Some (D, S_, I_S) /\
    contraction_path ≡ₚ I_S ++ concat D.*2 /\
    I_S `sublist_of` contraction_path /\
    filter (fun k => negb (is_sketch k)) calls
      = concat groups ++ (tree_call (is_tn_embedding self) S_ m <$> I_S) /\
    Forall2 (fun (item : Edge * list Contraction) group =>
               exists i : Z,
                 group ≡ₚ (fun c : Contraction =>
                             CallContract i (if c.2 =? i then c.1 else c.2)) <$> item.2)
      D groups /\
    length (filter (fun k => negb (is_sketch k)) calls) = length contraction_path.
Proof.
  unfold embed. destruct (calc_m self x) as [m|]; simpl; [|done].
  destruct (_partition_contractions x contraction_path (get_edges_to_sketch x))
    as [[[D S_] I_S]|] eqn:Hp; simpl; [|done].
  destruct (_contract_and_sketch_kronecker_product D m (x, [])) as [st|] eqn:Hk; simpl; [|done].
  intros Ht%tree_pass_trace. simpl in Ht.
  assert (Hbody : forall (item : Edge * list Contraction) (st1 st2 : Run (Edge:=Edge) (TN:=TN)),
    item ∈ D -> kronecker_group m item st1 = Some st2 ->
    exists cs, st2.2 = st1.2 ++ cs /\
      exists i : Z, filter (fun k => negb (is_sketch k)) cs
        ≡ₚ (fun c : Contraction => CallContract i (if c.2 =? i then c.1 else c.2)) <$> item.2).
  { intros [e l] st1 st2 _ Hg.
    destruct (kronecker_group_contracts _ _ _ _ _ Hg) as (cs & i & Hcs & Hperm). eauto. }
  destruct (for_each_calls _ _ _ _ _ Hbody Hk) as (callss & Hst & HP). simpl in Hst.
  pose proof (partition_I_S_in_path_order _ _ _ _ _ _ Hp) as Hsub.
  apply partition_contractions_inv in Hp as (_ & _ & _ & HP').
  destruct (tree_calls_not_sketch (is_tn_embedding self) S_ I_S m) as [Htree _].
  assert (Hcalls : filter (fun k => negb (is_sketch k)) calls
    = concat (filter (fun k => negb (is_sketch k)) <$> callss)
      ++ (tree_call (is_tn_embedding self) S_ m <$> I_S)).
  { by rewrite Ht, Hst, filter_app, Htree, filter_concat. }
  assert (Hgroups : Forall2 (fun (item : Edge * list Contraction) group =>
    exists i : Z, group ≡ₚ (fun c : Contraction =>
                              CallContract i (if c.2 =? i then c.1 else c.2)) <$> item.2)
    D (filter (fun k => negb (is_sketch k)) <$> callss)).
  { by apply Forall2_fmap_r. }
  exists m, D, S_, I_S, (filter (fun k => negb (is_sketch k)) <$> callss).
  split_and!; [done..|].
  assert (Hlen : length (concat (filter (fun k => negb (is_sketch k)) <$> callss))
    = length (concat D.*2)).
  { clear -Hgroups.
    induction Hgroups as [|[e l] group D groups [i Hi] _ IH]; csimpl; [done|].
    by rewrite !length_app, IH, Hi, length_fmap. }
  rewrite Hcalls, length_app, length_fmap, HP', length_app. lia.
Qed.

(** X10. [embed] works in two phases: its calls are those of the Kronecker
    pass, which are sketches and plain contractions only, followed by those
    of the tree-embedding pass, one per entry of [I_S], none of which is a
    sketch.  No sketch is issued after a joint operation. *)
Theorem embed_sketches_before_tree_pass (self : EfficientGaussianEmb) x
    (contraction_path : list Contraction) x' (calls : list (Call Edge)) :
  embed self x contraction_path = Some (x', calls) ->
  exists m D (S_ I_S : list Contraction) kron,
    calc_m self x = Some m /\
    _partition_contractions x contraction_path (get_edges_to_sketch x) = Some (D, S_, I_S) /\
    calls = kron ++ (tree_call (is_tn_embedding self) S_ m <$> I_S) /\
    Forall (fun k => is_sketch k \/ is_contract k) kron /\
    Forall (fun k : Call Edge => ~ is_sketch k)
      (tree_call (is_tn_embedding self) S_ m <$> I_S).
Proof.
  unfold embed. destruct (calc_m self x) as [m|]; simpl; [|done].
  destruct (_partition_contractions x contraction_path (get_edges_to_sketch x))
    as [[[D S_] I_S]|] eqn:Hp; simpl; [|done].
  destruct (_contract_and_sketch_kronecker_product D m (x, [])) as [st|] eqn:Hk; simpl; [|done].
  intros Ht%tree_pass_trace. simpl in Ht.
  apply kronecker_pass_calls_shape in Hk as (kron & Hst & Hkron & _). simpl in Hst.
  exists m, D, S_, I_S, kron. split_and!; [done..| |done|].
  - by rewrite Ht, Hst.
  - apply tree_calls_not_sketch.
Qed.

Lemma dict_from_keys_empty_buckets (ks : list Edge) :
  Forall (fun p => p.2 = []) (dict_from_keys ks ([] : list Contraction)).
Proof.
  unfold dict_from_keys.
  assert (G1 : forall (M : list (Edge * list Contraction)) k,
    Forall (fun p => p.2 = []) M -> Forall (fun p => p.2 = []) (dict_set M k [])).
  { induction 1 as [|[k0 l0] M Hl HM IH]; simpl.
    - by repeat constructor.
    - case_decide; constructor; done. }
  assert (G2 : forall (M : list (Edge * list Contraction)),
    Forall (fun p => p.2 = []) M ->
    Forall (fun p => p.2 = []) (foldl (fun M k => dict_set M k []) M ks)).
  { induction ks as [|k ks IH]; intros M HM; simpl; [done|]. apply IH, G1, HM. }
  apply G2. constructor.
Qed.

(** X11. With an empty contraction path and distinct edges to sketch,
    [embed] issues one sketch for each edge, in the order of the edges, and
    nothing else. *)
Theorem embed_empty_path_only_sketches (self : EfficientGaussianEmb) x x'
    (calls : list (Call Edge)) :
  NoDup (get_edges_to_sketch x) ->
  embed self x [] = Some (x', calls) ->
  exists m, calc_m self x = Some m /\
    calls = (fun e => CallSketch e m) <$> get_edges_to_sketch x.
Proof.
  intros Hnd. unfold embed. destruct (calc_m self x) as [m|]; simpl; [|done].
  destruct (_contract_and_sketch_kronecker_product
              (dict_from_keys (get_edges_to_sketch x) []) m (x, [])) as [st|] eqn:Hk;
    simpl; [|done].
  intros [= ->]. exists m. split; [done|].
  assert (Hbody : forall (item : Edge * list Contraction) (st1 st2 : Run (Edge:=Edge) (TN:=TN)),
    item ∈ dict_from_keys (get_edges_to_sketch x) [] ->
    kronecker_group m item st1 = Some st2 ->
    exists cs, st2.2 = st1.2 ++ cs /\ cs = [CallSketch item.1 m]).
  { intros [e l] st1 st2 Hin.
    pose proof (dict_from_keys_empty_buckets (get_edges_to_sketch x)) as Hall.
    rewrite Forall_forall in Hall. apply Hall in Hin. simpl in Hin. subst l.
    simpl. intros Hs%call_sketch_calls. eauto. }
  destruct (for_each_calls _ _ _ _ _ Hbody Hk) as (callss & Hcalls & HP).
  simpl in Hcalls. subst calls.
  pose proof (dict_from_keys_NoDup (get_edges_to_sketch x) ([] : list Contraction) Hnd)
    as Hkeys.
  revert HP Hkeys. clear.
  generalize (dict_from_keys (get_edges_to_sketch x) ([] : list Contraction)).
  intros D HP <-.
  induction HP as [|[e l] cs D callss -> _ IH]; csimpl; [done|]. by rewrite IH.
Qed.

End EmbedCoverage.

(** ** More on the dimension planner *)

Section DimensionCoverage.
Context {Edge TN : Type} `{EqDecision Edge} `{!TensorNetwork Edge TN} `{!FloatLib}.

Implicit Types (x : TN) (self : EfficientGaussianEmb).

Lemma mul_zero_finite (a b : float) :
  (exists s, Prim2SF a = S754_zero s) -> float_is_finite b = true ->
  exists s, Prim2SF (PrimFloat.mul a b) = S754_zero s.
Proof.
  intros [s Ha] Hb. rewrite mul_spec, Ha. unfold float_is_finite in Hb.
  destruct (Prim2SF b); try done; simpl; eauto.
Qed.

Lemma div_zero_nonzero (a b : float) :
  (exists s, Prim2SF a = S754_zero s) -> float_is_nonzero_number b = true ->
  exists s, Prim2SF (PrimFloat.div a b) = S754_zero s.
Proof.
  intros [s Ha] Hb. rewrite div_spec, Ha. unfold float_is_nonzero_number in Hb.
  destruct (Prim2SF b); try done; simpl; eauto.
Qed.

(** X12. A network with no edge to sketch: when [delta] is not zero, the
    logarithm and [m_scalar] are finite and [eps ** 2] is a number other
    than zero, [calc_m] returns 1. *)
Theorem calc_m_no_edges self x (inv sq : float) :
  get_edges_to_sketch x = [] ->
  float_div 1%float (delta self) = Some inv ->
  float_is_finite (np_log inv) = true ->
  float_pow (eps self) 2 = Some sq ->
  float_is_nonzero_number sq = true ->
  float_is_finite (m_scalar self) = true ->
  calc_m self x = Some 1.
Proof.
  intros Hno Hinv Hlog Hsq Hnz Hms. unfold calc_m. rewrite Hinv, Hsq, Hno. simpl.
  change (float_of_len 0) with 0%float.
  destruct (mul_zero_finite 0%float (np_log inv)) as [s1 H1]; [by exists false|done|].
  destruct (div_zero_nonzero _ sq (ex_intro _ s1 H1) Hnz) as [s2 H2].
  destruct (mul_zero_finite _ (m_scalar self) (ex_intro _ s2 H2) Hms) as [s3 H3].
  unfold py_int. rewrite H3. done.
Qed.

End DimensionCoverage.

(** ** When the cost simulation is exact *)

Section SimulationExact.
Context {Edge TN : Type} `{EqDecision Edge} `{!TensorNetwork Edge TN}.
Variable size : Edge -> Z.

Implicit Types (e : Edge) (U V : Node Edge).

Lemma filter_fmap_elem {A B : Type} (f : A -> B) (P : B -> Prop) (Q : A -> Prop)
    `{!forall b, Decision (P b)} `{!forall a, Decision (Q a)} (l : list A) :
  (forall a, a ∈ l -> P (f a) <-> Q a) ->
  filter P (f <$> l) = f <$> filter Q l.
Proof.
  induction l as [|a l IH]; intros Hl; [done|].
  rewrite fmap_cons, !filter_cons.
  assert (Ha : P (f a) <-> Q a) by (apply Hl; left).
  rewrite IH by (intros b Hb; apply Hl; by right).
  destruct (decide (P (f a))), (decide (Q a)); try done; tauto.
Qed.

Lemma mapM_fmap_elem {A B : Type} (f : A -> option B) (g : A -> B) (l : list A) :
  (forall a, a ∈ l -> f a = Some (g a)) -> mapM f l = Some (g <$> l).
Proof.
  induction l as [|a l IH]; intros Hl; [done|].
  change (mapM f (a :: l)) with (f a ≫= fun b => mapM f l ≫= fun k => Some (b :: k)).
  rewrite Hl by left. simpl. rewrite IH by (intros b Hb; apply Hl; by right). done.
Qed.

Lemma labelled_well V :
  well_labelled size V -> labelled V = (fun e => (e, size e)) <$> edges V.
Proof.
  unfold well_labelled, labelled. intros ->.
  induction (edges V) as [|e l IH]; csimpl; [done|]. by rewrite IH.
Qed.

Lemma build_U_edges_sizes (es : list Edge) (shape : list Z) (i : nat) acc U_edges :
  (forall j e, es !! j = Some e -> shape !! (i + j)%nat = Some (size e)) ->
  (forall e d, dict_get acc e = Some d -> d = size e) ->
  build_U_edges es shape i acc = Some U_edges ->
  forall e d, dict_get U_edges e = Some d -> d = size e.
Proof.
  revert i acc. induction es as [|e0 es IH]; intros i acc Hshape Hacc; simpl.
  - by intros [= <-].
  - pose proof (Hshape 0%nat e0 eq_refl) as H0. rewrite Nat.add_0_r in H0.
    rewrite H0. simpl. apply IH.
    + intros j e Hj. replace (S i + j)%nat with (i + S j)%nat by lia. by apply Hshape.
    + intros e d. rewrite dict_set_get. case_decide; [by intros [= <-]; subst|apply Hacc].
Qed.

(** The recorded sizes of the anchor's edges, when its shape is by edge. *)
Lemma U_edges_sizes U :
  well_labelled size U ->
  exists U_edges, build_U_edges (edges U) (tensor_shape U) 0 [] = Some U_edges /\
    forall e, e ∈ edges U -> dict_get U_edges e = Some (size e).
Proof.
  intros HU.
  destruct (build_U_edges_is_Some (edges U) (tensor_shape U) 0 []) as (UE & HUE & Hget).
  { rewrite HU, length_fmap. lia. }
  exists UE. split; [done|]. intros e He.
  destruct (Hget e (or_introl He)) as [d Hd]. rewrite Hd. f_equal.
  apply (build_U_edges_sizes (edges U) (tensor_shape U) 0 [] UE); [| |done|done].
  - intros j e' Hj. rewrite HU, list_lookup_fmap. simpl. by rewrite Hj.
  - intros e' d' [=].
Qed.

Lemma concat_edges_disjoint V (rest : list (Node Edge)) V' e :
  NoDup (concat (edges <$> (V :: rest))) -> V' ∈ rest ->
  e ∈ edges V -> e ∈ edges V' -> False.
Proof.
  csimpl. intros (_ & Hdis & _)%NoDup_app HV' He He'.
  apply (Hdis e He). apply list_elem_of_In, in_concat. exists (edges V').
  split; apply list_elem_of_In; [|done]. apply list_elem_of_fmap. by exists V'.
Qed.

(** The tracked shapes from a tensor whose dimensions are those of the
    edges [current]. *)
Lemma tracked_shapes_exact_from (U_edges : list (Edge * Z)) U
    (contraction_order : list (Node Edge)) (current all : list Edge) :
  (forall e, e ∈ edges U -> dict_get U_edges e = Some (size e)) ->
  Forall (well_labelled size) contraction_order ->
  NoDup (concat (edges <$> contraction_order)) ->
  (forall e e', e ∈ all -> e' ∈ all -> size e = size e' -> e = e') ->
  current ⊆ all -> edges U ⊆ all ->
  (forall V, V ∈ contraction_order -> edges V ⊆ all) ->
  (forall e V, e ∈ current -> V ∈ contraction_order -> e ∈ edges V -> e ∈ edges U) ->
  (forall e V, e ∈ edges U -> V ∈ contraction_order -> e ∈ edges V -> e ∈ current) ->
  tracked_shapes U_edges U contraction_order (size <$> current) =
  Some (contracted_shapes ((fun e => (e, size e)) <$> current) contraction_order).
Proof.
  intros HUE. revert current.
  induction contraction_order as [|V rest IH];
    intros current Hwell Hnd Hinj Hcur HU Hall Ha Hb; [done|].
  apply Forall_cons in Hwell as [HV Hwell].
  assert (HVin : V ∈ V :: rest) by left.
  assert (Hci : contracted_indices U_edges U V
                = Some (size <$> filter (fun e => e ∈ edges V) (edges U))).
  { unfold contracted_indices. apply mapM_fmap_elem.
    intros e [_ He]%list_elem_of_filter. by apply HUE. }
  assert (Hin_ci : forall e, e ∈ all ->
    size e ∈ size <$> filter (fun e => e ∈ edges V) (edges U) <-> e ∈ edges U /\ e ∈ edges V).
  { intros e He. rewrite list_elem_of_fmap. split.
    - intros (e' & Hs & [He'V He'U]%list_elem_of_filter).
      assert (e = e') as <- by (apply Hinj; auto). done.
    - intros [? ?]. exists e. split; [done|]. by apply list_elem_of_filter. }
  set (current' := filter (fun e => e ∉ edges V) current
                   ++ filter (fun e => e ∉ current) (edges V)).
  assert (Hshape : new_shape (size <$> filter (fun e => e ∈ edges V) (edges U))
                     (size <$> current) V = size <$> current').
  { unfold new_shape, current'. rewrite HV, fmap_app. f_equal.
    - apply filter_fmap_elem. intros e He. rewrite Hin_ci by auto.
      split; [intros Hn HeV; apply Hn; eauto|intros Hn [_ HeV]; done].
    - apply filter_fmap_elem. intros e He. rewrite Hin_ci by (by apply (Hall V)).
      split; [intros Hn Hc; apply Hn; eauto|intros Hn [HeU _]; apply Hn; eauto]. }
  assert (Hlab : contract_labelled ((fun e => (e, size e)) <$> current) V
                 = (fun e => (e, size e)) <$> current').
  { unfold contract_labelled, current'. rewrite (labelled_well V HV), fmap_app. f_equal.
    - by apply filter_fmap_elem.
    - apply filter_fmap_elem. intros e He. simpl.
      rewrite <- list_fmap_compose.
      replace (fst ∘ (fun e0 : Edge => (e0, size e0)) <$> current) with current; [done|].
      clear. induction current as [|a l IH]; csimpl; [done|]. by rewrite <- IH. }
  cbn [tracked_shapes contracted_shapes]. rewrite Hci. simpl. rewrite Hshape, Hlab.
  rewrite IH.
  - simpl. repeat f_equal. rewrite <- list_fmap_compose.
    clear. induction current' as [|a l IH]; csimpl; [done|]. by rewrite <- IH.
  - done.
  - csimpl in Hnd. by apply NoDup_app in Hnd as (_ & _ & ?).
  - done.
  - unfold current'. intros e [[_ ?]%list_elem_of_filter|[_ ?]%list_elem_of_filter]%elem_of_app.
    + by apply Hcur.
    + by apply (Hall V).
  - done.
  - intros V' HV'. apply Hall. by right.
  - unfold current'. intros e V' [[_ He]%list_elem_of_filter|[_ He]%list_elem_of_filter]%elem_of_app HV' He'.
    + apply (Ha e V'); [done|by right|done].
    + exfalso. by eapply (concat_edges_disjoint V rest V' e).
  - unfold current'. intros e V' HeU HV' He'. apply elem_of_app. left.
    apply list_elem_of_filter. split.
    + intros HeV. by eapply (concat_edges_disjoint V rest V' e).
    + apply (Hb e V'); [done|by right|done].
Qed.

(** X13. When every dimension has the size of its edge, the edges involved
    have different sizes, and the partners have distinct edges and share
    none among themselves, the shapes the loop tracks are the shapes of the
    contraction by edge identity, step by step. *)
Theorem tracked_shapes_exact U (contraction_order : list (Node Edge)) :
  well_labelled size U ->
  Forall (well_labelled size) contraction_order ->
  NoDup (concat (edges <$> contraction_order)) ->
  (forall e e',
     e ∈ edges U ++ concat (edges <$> contraction_order) ->
     e' ∈ edges U ++ concat (edges <$> contraction_order) ->
     size e = size e' -> e = e') ->
  exists U_edges,
    build_U_edges (edges U) (tensor_shape U) 0 [] = Some U_edges /\
    tracked_shapes U_edges U contraction_order (tensor_shape U)
      = Some (contracted_shapes (labelled U) contraction_order).
Proof.
  intros HU Hwell Hnd Hinj.
  destruct (U_edges_sizes U HU) as (UE & HUE & Hget).
  exists UE. split; [done|].
  rewrite (labelled_well U HU). unfold well_labelled in HU. rewrite HU.
  apply (tracked_shapes_exact_from UE U contraction_order (edges U)
           (edges U ++ concat (edges <$> contraction_order))); try done.
  - intros e He. apply elem_of_app. by left.
  - intros e He. apply elem_of_app. by left.
  - intros V HV e He. apply elem_of_app. right.
    apply list_elem_of_In, in_concat. exists (edges V).
    split; apply list_elem_of_In; [|done]. apply list_elem_of_fmap. by exists V.
Qed.

End SimulationExact.

(** ** The folders of the experiments *)

Section FoldersCoverage.

Implicit Types (fs : gmap (list string) Os.kind) (above names : list string).

(** What a successful [makedirs] leaves: what was there, and a directory at
    each path it went through, and nothing else. *)
Lemma makedirs_from_Some fs above names fs' :
  Os.makedirs_from fs above names = Some fs' ->
  fs ⊆ fs' /\
  (forall p, p ∈ Os.ancestors above names -> fs' !! p = Some Os.Dir) /\
  (forall q k, fs' !! q = Some k ->
     fs !! q = Some k \/ (q ∈ Os.ancestors above names /\ k = Os.Dir)).
Proof.
  revert fs above. induction names as [|d rest IH]; intros fs above; simpl.
  - intros [= <-]. split_and!; [done| |by left]. intros p []%elem_of_nil.
  - destruct (fs !! (above ++ [d])) as [[|]|] eqn:Hp; [| done |].
    + intros (H1 & H2 & H3)%IH. split_and!; [done| |].
      * intros p [->|Hin]%elem_of_cons; [|by apply H2].
        by eapply lookup_weaken.
      * intros q k Hq. destruct (H3 q k Hq) as [?|[? ?]]; [by left|right].
        split; [by right|done].
    + intros (H1 & H2 & H3)%IH. split_and!.
      * etrans; [|exact H1]. by apply insert_subseteq.
      * intros p [->|Hin]%elem_of_cons; [|by apply H2].
        eapply lookup_weaken; [|exact H1]. by rewrite lookup_insert_eq.
      * intros q k Hq. destruct (H3 q k Hq) as [Hq'|[? ?]].
        -- destruct (decide (q = above ++ [d])) as [->|Hne].
           ++ rewrite lookup_insert_eq in Hq'. injection Hq' as <-.
              right. split; [left|done].
           ++ rewrite lookup_insert_ne in Hq' by done. by left.
        -- right. split; [by right|done].
Qed.

(** [makedirs] changes nothing when the directories are there. *)
Lemma makedirs_from_there fs above names :
  (forall p, p ∈ Os.ancestors above names -> fs !! p = Some Os.Dir) ->
  Os.makedirs_from fs above names = Some fs.
Proof.
  revert above. induction names as [|d rest IH]; intros above Hall; simpl; [done|].
  rewrite (Hall (above ++ [d])) by left. apply IH. intros p Hp. apply Hall. by right.
Qed.

(** [makedirs] raises exactly when a file is in the way. *)
Lemma makedirs_from_None fs above names :
  Os.makedirs_from fs above names = None <->
  exists p, p ∈ Os.ancestors above names /\ fs !! p = Some Os.File.
Proof.
  revert fs above. induction names as [|d rest IH]; intros fs above; simpl.
  - split; [done|]. by intros (p & []%elem_of_nil & _).
  - destruct (fs !! (above ++ [d])) as [[|]|] eqn:Hp.
    + rewrite IH. split; intros (p & Hin & Hf).
      * exists p. split; [by right|done].
      * exists p. split; [|done]. apply elem_of_cons in Hin as [->|Hin]; [|done].
        rewrite Hp in Hf. discriminate.
    + split; [|done]. intros _. exists (above ++ [d]). split; [left|done].
    + rewrite IH. split; intros (p & Hin & Hf).
      * exists p. split; [by right|].
        destruct (decide (p = above ++ [d])) as [->|Hne].
        -- rewrite lookup_insert_eq in Hf. discriminate.
        -- by rewrite lookup_insert_ne in Hf.
      * exists p. apply elem_of_cons in Hin as [->|Hin].
        -- rewrite Hp in Hf. discriminate.
        -- split; [done|]. rewrite lookup_insert_ne; [done|]. intros <-.
           rewrite Hp in Hf. discriminate.
Qed.

(** [create_folders] with the components of its three paths. *)
Lemma create_folders_paths fs :
  create_folders fs =
  Os.makedirs_from fs [] ["results"; "graphs"]%string ≫= fun fs1 =>
  Os.makedirs_from fs1 [] ["results"; "kronecker_order_test"]%string ≫= fun fs2 =>
  Os.makedirs_from fs2 [] ["results"; "tt_rank_test"]%string.
Proof. reflexivity. Qed.

Lemma create_folders_Some fs fs' :
  create_folders fs = Some fs' ->
  fs ⊆ fs' /\
  (forall p, p ∈ results_folders -> fs' !! p = Some Os.Dir) /\
  (forall q k, fs' !! q = Some k ->
     fs !! q = Some k \/ (q ∈ results_folders /\ k = Os.Dir)).
Proof.
  rewrite create_folders_paths.
  destruct (Os.makedirs_from fs [] ["results"; "graphs"]%string) as [fs1|] eqn:H1;
    [|done].
  cbn [mbind option_bind].
  destruct (Os.makedirs_from fs1 [] ["results"; "kronecker_order_test"]%string)
    as [fs2|] eqn:H2; [|done].
  cbn [mbind option_bind]. intros H3.
  apply makedirs_from_Some in H1 as (Ha1 & Ha2 & Ha3).
  apply makedirs_from_Some in H2 as (Hb1 & Hb2 & Hb3).
  apply makedirs_from_Some in H3 as (Hc1 & Hc2 & Hc3).
  simpl in Ha2, Ha3, Hb2, Hb3, Hc2, Hc3.
  split_and!.
  - etrans; [exact Ha1|]. etrans; [exact Hb1|exact Hc1].
  - intros p Hp. unfold results_folders in Hp.
    repeat (apply elem_of_cons in Hp as [->|Hp]); [| | | |by apply elem_of_nil in Hp].
    + apply Hc2. left.
    + eapply lookup_weaken; [|exact Hc1]. eapply lookup_weaken; [|exact Hb1].
      apply Ha2. right; left.
    + eapply lookup_weaken; [|exact Hc1]. apply Hb2. right; left.
    + apply Hc2. right; left.
  - intros q k Hq. unfold results_folders.
    destruct (Hc3 q k Hq) as [Hq2|[Hin ->]].
    2:{ right. split; [|done]. set_solver. }
    destruct (Hb3 q k Hq2) as [Hq1|[Hin ->]].
    2:{ right. split; [|done]. set_solver. }
    destruct (Ha3 q k Hq1) as [Hq0|[Hin ->]]; [by left|].
    right. split; [|done]. set_solver.
Qed.

(** X14. When [create_folders] returns, [results] and its three folders
    are directories, everything that was there is still there, and nothing
    else was made. *)
Theorem create_folders_provides_folders fs fs' :
  create_folders fs = Some fs' ->
  fs ⊆ fs' /\
  (forall p, p ∈ results_folders -> fs' !! p = Some Os.Dir) /\
  (forall q k, fs' !! q = Some k ->
     fs !! q = Some k \/ (q ∈ results_folders /\ k = Os.Dir)).
Proof. apply create_folders_Some. Qed.

(** X15. Running [create_folders] again changes nothing: on the file system
    it has left, it returns that file system. *)
Theorem create_folders_again fs fs' :
  create_folders fs = Some fs' -> create_folders fs' = Some fs'.
Proof.
  intros (_ & Hdirs & _)%create_folders_Some.
  assert (Hthere : forall names,
    (forall p, p ∈ Os.ancestors [] names -> p ∈ results_folders) ->
    Os.makedirs_from fs' [] names = Some fs').
  { intros names Hsub. apply makedirs_from_there. intros p Hp. by apply Hdirs, Hsub. }
  rewrite create_folders_paths.
  rewrite Hthere by (simpl; unfold results_folders; set_solver).
  cbn [mbind option_bind].
  rewrite Hthere by (simpl; unfold results_folders; set_solver).
  cbn [mbind option_bind].
  apply Hthere. simpl. unfold results_folders. set_solver.
Qed.

(** X16. [create_folders] raises exactly when [results] or one of its three
    folders is there as a file. *)
Theorem create_folders_raises_iff fs :
  create_folders fs = None <->
  exists p, p ∈ results_folders /\ fs !! p = Some Os.File.
Proof.
  split.
  - rewrite create_folders_paths. unfold results_folders.
    destruct (Os.makedirs_from fs [] ["results"; "graphs"]%string) as [fs1|] eqn:H1.
    2:{ intros _. apply makedirs_from_None in H1 as (p & Hp & Hf). simpl in Hp.
        exists p. split; [set_solver|done]. }
    cbn [mbind option_bind].
    apply makedirs_from_Some in H1 as (_ & _ & Ha3).
    destruct (Os.makedirs_from fs1 [] ["results"; "kronecker_order_test"]%string)
      as [fs2|] eqn:H2.
    2:{ intros _. apply makedirs_from_None in H2 as (p & Hp & Hf). simpl in Hp.
        exists p. split; [set_solver|].
        by destruct (Ha3 p _ Hf) as [?|[_ [=]]]. }
    cbn [mbind option_bind].
    apply makedirs_from_Some in H2 as (_ & _ & Hb3).
    intros (p & Hp & Hf)%makedirs_from_None. simpl in Hp. exists p.
    split; [set_solver|].
    destruct (Hb3 p _ Hf) as [Hf1|[_ [=]]].
    by destruct (Ha3 p _ Hf1) as [?|[_ [=]]].
  - intros (p & Hp & Hf).
    destruct (create_folders fs) as [fs'|] eqn:Hc; [|done].
    apply create_folders_Some in Hc as (Hsub & Hdirs & _).
    pose proof (lookup_weaken _ _ _ _ Hf Hsub) as Hf'.
    rewrite (Hdirs p Hp) in Hf'. discriminate.
Qed.

End FoldersCoverage.

(** ** More examples *)

Section MoreExamples.
Import Sample MoreSamples.

Lemma partition_is_filter_of_path_witness :
  partition1.1.2 = filter (fun c => both_pending net1 c) path1 /\
  partition1.2 = filter (fun c => bucket_of net1 c = None) path1 /\
  forall e, e ∈ [1; 3; 5]%nat ->
    dict_get partition1.1.1 e = Some (filter (fun c => bucket_of net1 c = Some e) path1).
Proof.
  apply (partition_is_filter_of_path net1 path1 [1; 3; 5]%nat). reflexivity.
Defined.

Lemma partition_buckets_in_order_witness : partition1.1.1.*1 = [1; 3; 5]%nat.
Proof.
  apply (partition_buckets_in_order net1 path1 [1; 3; 5]%nat partition1.1.1
           partition1.1.2 partition1.2).
  - refine (bool_decide_unpack _ _). vm_compute. exact I.
  - reflexivity.
Defined.

Lemma minimize_U_result_bounds_witness :
  -1 <= 0 < Z.of_nat (length [node_v]) /\
  value (Int 3) <= tensor_size node_u /\
  (0 = -1 <-> value (Int 3) = tensor_size node_u).
Proof. apply (minimize_U_result_bounds node_u [node_v] (Int 3) 0). reflexivity. Defined.

Lemma kronecker_ties_keep_first_witness :
  exists (k : nat) sizes,
    permutations (map (fun c : Contraction => if c.2 =? 0 then c.1 else c.2) path3) !! k
      = Some (plan_partners [(0, Some 1); (0, Some 2); (0, None)]) /\
    simulated_sizes net3 (mkNode [0; 1; 2]%nat [2; 3; 5] [2]%nat)
      (plan_partners [(0, Some 1); (0, Some 2); (0, None)]) = Some sizes /\
    (forall p sizes_p,
       p ≡ₚ map (fun c : Contraction => if c.2 =? 0 then c.1 else c.2) path3 ->
       simulated_sizes net3 (mkNode [0; 1; 2]%nat [2; 3; 5] [2]%nat) p = Some sizes_p ->
       min_achieved (mkNode [0; 1; 2]%nat [2; 3; 5] [2]%nat) sizes
       <= min_achieved (mkNode [0; 1; 2]%nat [2; 3; 5] [2]%nat) sizes_p) /\
    (forall j p sizes_p, (j < k)%nat ->
       permutations (map (fun c : Contraction => if c.2 =? 0 then c.1 else c.2) path3) !! j
         = Some p ->
       simulated_sizes net3 (mkNode [0; 1; 2]%nat [2; 3; 5] [2]%nat) p = Some sizes_p ->
       min_achieved (mkNode [0; 1; 2]%nat [2; 3; 5] [2]%nat) sizes
       < min_achieved (mkNode [0; 1; 2]%nat [2; 3; 5] [2]%nat) sizes_p) /\
    (forall sizes0,
       simulated_sizes net3 (mkNode [0; 1; 2]%nat [2; 3; 5] [2]%nat)
         (map (fun c : Contraction => if c.2 =? 0 then c.1 else c.2) path3) = Some sizes0 ->
       min_achieved (mkNode [0; 1; 2]%nat [2; 3; 5] [2]%nat) sizes0
       <= min_achieved (mkNode [0; 1; 2]%nat [2; 3; 5] [2]%nat) sizes ->
       plan_partners [(0, Some 1); (0, Some 2); (0, None)]
       = map (fun c : Contraction => if c.2 =? 0 then c.1 else c.2) path3).
Proof.
  apply (kronecker_ties_keep_first net3 path3 0); [reflexivity..|].
  apply least_sizes_exact_check. vm_compute. reflexivity.
Defined.

Lemma kronecker_sketch_after_first_least_step_witness :
  exists sizes (k : nat),
    plan_partners [(0, Some 2); (0, Some 1); (0, None)]
      ≡ₚ map (fun c : Contraction => if c.2 =? 0 then c.1 else c.2) path2 /\
    simulated_sizes net2 (mkNode [0; 1; 2]%nat [4; 2; 5] [2]%nat)
      (plan_partners [(0, Some 2); (0, Some 1); (0, None)]) = Some sizes /\
    (tensor_size (mkNode [0; 1; 2]%nat [4; 2; 5] [2]%nat) :: sizes) !! k
      = Some (min_achieved (mkNode [0; 1; 2]%nat [4; 2; 5] [2]%nat) sizes) /\
    (forall j s,
       (tensor_size (mkNode [0; 1; 2]%nat [4; 2; 5] [2]%nat) :: sizes) !! j = Some s ->
       (j < k)%nat ->
       min_achieved (mkNode [0; 1; 2]%nat [4; 2; 5] [2]%nat) sizes < s) /\
    [(0, Some 2); (0, Some 1); (0, None)]
    = (pair 0 ∘ Some <$> take k (plan_partners [(0, Some 2); (0, Some 1); (0, None)]))
      ++ (0, None)
         :: (pair 0 ∘ Some <$> drop k (plan_partners [(0, Some 2); (0, Some 1); (0, None)])).
Proof. apply (kronecker_sketch_after_first_least_step net2 path2 0); reflexivity. Defined.

Lemma kronecker_single_contraction_plan_witness :
  let j := if (0, 1).2 =? 0 then (0, 1).1 else (0, 1).2 in
  [(0, None); (0, Some 1)]
  = if 12 <? tensor_size (mkNode [0; 1]%nat [2; 3] [1]%nat)
    then [(0, Some j); (0, None)] else [(0, None); (0, Some j)].
Proof.
  apply (kronecker_single_contraction_plan net1 (0, 1) 0 [(0, None); (0, Some 1)]
           (mkNode [0; 1]%nat [2; 3] [1]%nat) 12); reflexivity.
Defined.

Lemma embed_calls_one_contraction_per_entry_witness :
  exists m D (S_ I_S : list Contraction) (groups : list (list (Call nat))),
    calc_m emb1 net1 = Some m /\
    _partition_contractions net1 path1 (get_edges_to_sketch net1) = Some (D, S_, I_S) /\
    path1 ≡ₚ I_S ++ concat D.*2 /\
    I_S `sublist_of` path1 /\
    filter (fun k => negb (is_sketch k)) calls1
      = concat groups ++ (tree_call (is_tn_embedding emb1) S_ m <$> I_S) /\
    Forall2 (fun (item : nat * list Contraction) group =>
               exists i : Z,
                 group ≡ₚ (fun c : Contraction =>
                             CallContract i (if c.2 =? i then c.1 else c.2)) <$> item.2)
      D groups /\
    length (filter (fun k => negb (is_sketch k)) calls1) = length path1.
Proof.
  apply (embed_calls_one_contraction_per_entry emb1 net1 path1 embedded1 calls1).
  vm_compute. reflexivity.
Defined.

Lemma embed_sketches_before_tree_pass_witness :
  exists m D (S_ I_S : list Contraction) kron,
    calc_m emb1 net1 = Some m /\
    _partition_contractions net1 path1 (get_edges_to_sketch net1) = Some (D, S_, I_S) /\
    calls1 = kron ++ (tree_call (is_tn_embedding emb1) S_ m <$> I_S) /\
    Forall (fun k => is_sketch k \/ is_contract k) kron /\
    Forall (fun k : Call nat => ~ is_sketch k)
      (tree_call (is_tn_embedding emb1) S_ m <$> I_S).
Proof.
  apply (embed_sketches_before_tree_pass emb1 net1 path1 embedded1 calls1).
  vm_compute. reflexivity.
Defined.

Lemma embed_empty_path_only_sketches_witness :
  exists m, calc_m emb1 net1 = Some m /\
    sketched1.2 = (fun e => CallSketch e m) <$> get_edges_to_sketch net1.
Proof.
  apply (embed_empty_path_only_sketches emb1 net1 sketched1.1 sketched1.2).
  - refine (bool_decide_unpack _ _). vm_compute. exact I.
  - vm_compute. reflexivity.
Defined.

Lemma calc_m_no_edges_witness : calc_m emb_delta_one net0 = Some 1.
Proof.
  apply (calc_m_no_edges emb_delta_one net0 1%float 0x1.47ae147ae147cp-7%float);
    vm_compute; reflexivity.
Defined.

Lemma tracked_shapes_exact_witness :
  exists U_edges,
    build_U_edges (edges anchor3) (tensor_shape anchor3) 0 [] = Some U_edges /\
    tracked_shapes U_edges anchor3 partners3 (tensor_shape anchor3)
      = Some (contracted_shapes (labelled anchor3) partners3).
Proof.
  apply (tracked_shapes_exact size_of anchor3 partners3).
  - reflexivity.
  - repeat constructor.
  - refine (bool_decide_unpack _ _). vm_compute. exact I.
  - intros e e' _ _. unfold size_of. lia.
Defined.

Lemma create_folders_provides_folders_witness :
  ∅ ⊆ default ∅ (create_folders ∅) /\
  (forall p, p ∈ results_folders -> default ∅ (create_folders ∅) !! p = Some Os.Dir) /\
  (forall q k, default ∅ (create_folders ∅) !! q = Some k ->
     (∅ : gmap (list string) Os.kind) !! q = Some k \/ (q ∈ results_folders /\ k = Os.Dir)).
Proof.
  apply (create_folders_provides_folders ∅ (default ∅ (create_folders ∅))).
  vm_compute. reflexivity.
Defined.

Lemma create_folders_again_witness :
  create_folders (default ∅ (create_folders ∅)) = Some (default ∅ (create_folders ∅)).
Proof.
  apply (create_folders_again ∅ (default ∅ (create_folders ∅))).
  vm_compute. reflexivity.
Defined.

End MoreExamples.
